(** * moelist: archive grouping, metadata extraction and report rendering

    A shallow embedding of [src/libs/moelist/index.ts] (classes
    [ArchiveInfoReader] and [MoelistFormatter]) and the properties its
    specification states about it.

    Conventions of the embedding.
    - A JavaScript [string] is a Rocq [string], the text in UTF-8; the
      operations used by the source ([split], [endsWith], [startsWith],
      [padStart], [padEnd], [join]) are written out in module [JS].  The
      separators and suffixes the source looks for ('/', '.', '.zip',
      '.rar') are ASCII, so splitting and matching agree with JavaScript's
      on any text.  The length of a string is counted as JavaScript counts
      it, in UTF-16 code units ([JS.length]); padding pads to that length.
    - A JavaScript [number] that holds an integer is a [Z] or, for a
      count, a [nat].  A counter that starts at 0 and is incremented once
      per element of an array stays exact.  An addition of two numbers is
      the addition of doubles, [JS.add]: the exact sum rounded to the
      nearest double, ties to even; it is the exact sum as long as that
      sum is at most 2^53 in absolute value.  Sums beyond the largest
      finite double (about 1.8e308), which JavaScript gives as [Infinity],
      are outside the model.  A count interpolated into a template
      literal is its decimal numeral ([pretty]), as JavaScript writes
      every integer below 1e21.
    - [Set<string>] and [Map<K, V>] iterate in insertion order: they are
      lists without repeated elements (module [JSSet]) and association
      lists without repeated keys (module [JSMap]).
    - An [async] function yields a [promise]: fulfilled with a value,
      rejected with the failure that was thrown, or pending for ever when
      something it awaits never settles.
    - The zip decoder, the rar decoder (with the wasm binary the
      constructor fetches for it) and [Number.prototype.toLocaleString]
      live outside the repository; the functions that call them take them
      as section variables.  [ArchiveInfoReader.open] is [readArchiveInfo]
      on a fresh reader. *)

From Stdlib Require Import ZArith QArith Ascii.
From stdpp Require Import base list strings pretty gmap.

Local Open Scope Z_scope.

(** ** JavaScript primitives used by the source *)

Module JS.

(** [s.split(sep)] for a one-character separator: never empty, and
    [''.split(sep)] is [['']]. *)
Fixpoint split (sep : ascii) (s : string) : list string :=
  match s with
  | EmptyString => [EmptyString]
  | String c s' =>
      if decide (c = sep) then EmptyString :: split sep s'
      else match split sep s' with
           | seg :: segs => String c seg :: segs
           | [] => [String c EmptyString]
           end
  end.

(** [array.pop()] as used on a temporary: the last element, [undefined]
    on the empty array. *)
Definition pop (l : list string) : option string := last l.

(** Truthiness of a [string | undefined]. *)
Definition truthy (o : option string) : bool :=
  match o with
  | Some s => negb (String.eqb s "")
  | None => false
  end.

Definition startsWith (s pre : string) : bool := String.prefix pre s.

Definition endsWith (s suf : string) : bool :=
  let n := String.length s in
  let k := String.length suf in
  if decide (k ≤ n)%nat
  then String.eqb (String.substring (n - k) k s) suf
  else false.

Fixpoint spaces (n : nat) : string :=
  match n with
  | O => ""
  | S n' => String " " (spaces n')
  end.

(** The UTF-16 code units a byte of UTF-8 text stands for: none for a
    continuation byte (10xxxxxx), two for the lead byte of a four-byte
    sequence (11110xxx), whose code point needs a surrogate pair, one for
    any other byte. *)
Definition codeUnits (c : ascii) : nat :=
  let b := Ascii.N_of_ascii c in
  if ((128 <=? b) && (b <? 192))%N then 0%nat
  else if (240 <=? b)%N then 2%nat
  else 1%nat.

(** [s.length]: the number of UTF-16 code units of [s]. *)
Fixpoint length (s : string) : nat :=
  match s with
  | EmptyString => 0%nat
  | String c s' => (codeUnits c + length s')%nat
  end.

(** [s.padStart(n)] and [s.padEnd(n)] with the default filler, a space:
    as many spaces as [s.length] is short of [n]. *)
Definition padStart (n : nat) (s : string) : string :=
  spaces (n - length s) +:+ s.

Definition padEnd (n : nat) (s : string) : string :=
  s +:+ spaces (n - length s).

(** The double nearest to the integer [z], ties to even: [z] itself up
    to 2^53 in absolute value, beyond that the multiple of the spacing
    2^(log2 |z| - 52) nearest to [z]. *)
Definition toDouble (z : Z) : Z :=
  let a := Z.abs z in
  if a <=? 2 ^ 53 then z
  else
    let ulp := 2 ^ (Z.log2 a - 52) in
    let q := a / ulp in
    let r := a mod ulp in
    let q' :=
      if 2 * r <? ulp then q
      else if ulp <? 2 * r then q + 1
      else if Z.even q then q else q + 1 in
    Z.sgn z * (q' * ulp).

(** [a + b] on numbers that hold integers. *)
Definition add (a b : Z) : Z := toDouble (a + b).

Definition addNat (a b : nat) : nat :=
  Z.to_nat (add (Z.of_nat a) (Z.of_nat b)).

(** [array.join(sep)]. *)
Definition join (sep : string) (l : list string) : string :=
  String.concat sep l.

End JS.

(** [Set<T>], in insertion order. *)
Module JSSet.
Section defs.
Context {T : Type} `{EqDecision T}.

Definition add (x : T) (s : list T) : list T :=
  if decide (x ∈ s) then s else s ++ [x].

Definition size (s : list T) : nat := length s.
End defs.
End JSSet.

(** [Map<K, V>], in insertion order. *)
Module JSMap.
Section defs.
Context {K V : Type} `{EqDecision K}.

Fixpoint get (k : K) (m : list (K * V)) : option V :=
  match m with
  | [] => None
  | (k', v) :: m' => if decide (k = k') then Some v else get k m'
  end.

Definition has (k : K) (m : list (K * V)) : bool :=
  bool_decide (is_Some (get k m)).

Fixpoint set (k : K) (v : V) (m : list (K * V)) : list (K * V) :=
  match m with
  | [] => [(k, v)]
  | (k', v') :: m' =>
      if decide (k = k') then (k, v) :: m' else (k', v') :: set k v m'
  end.

(** [m.get(k)?.method(...)] where the method mutates the object stored
    under [k]: the stored value changes in place, nothing happens when
    the key is absent. *)
Fixpoint mutate (k : K) (f : V → V) (m : list (K * V)) : list (K * V) :=
  match m with
  | [] => []
  | (k', v) :: m' =>
      if decide (k = k') then (k', f v) :: m' else (k', v) :: mutate k f m'
  end.

Definition values (m : list (K * V)) : list V := m.*2.
End defs.
End JSMap.

(** ** Data model *)

(** [FileWithPath] of @mantine/dropzone: a [File] with an optional [path]. *)
Module FileWithPath.
Record t := mk { name : string; size : Z; path : option string }.
End FileWithPath.

Module ArchiveType.
Inductive t := zip | rar | folder.
End ArchiveType.

Module Archive.
Record t := mk {
  name : string;
  size : Z;
  type : ArchiveType.t;
  files : option (list FileWithPath.t)
}.
End Archive.

Module ArchiveInfo.
Record t := mk {
  name : string;
  size : Z;
  exts : list string;
  fileCount : nat;
  folderCount : nat
}.
End ArchiveInfo.

(** A file header of node-unrar-js, reduced to the two fields read. *)
Module FileHeader.
Record t := mk { name : string; directory : bool }.
End FileHeader.

Inductive failure := TypeError | DecodeError.

Inductive promise (A : Type) :=
  | Fulfilled (a : A)
  | Rejected (e : failure)
  | Pending.
Arguments Fulfilled {A} a.
Arguments Rejected {A} e.
Arguments Pending {A}.

(** [await p] followed by the rest of the function body: stdpp's monadic
    notation [x ← p; k]. *)
#[global] Instance promise_bind : MBind promise := λ A B k p,
  match p with
  | Fulfilled a => k a
  | Rejected e => Rejected e
  | Pending => Pending
  end.

(** [o!] followed by a member access: a [TypeError] when [o] is
    [undefined]. *)
Definition nonNull {A} (o : option A) : promise A :=
  match o with
  | Some a => Fulfilled a
  | None => Rejected TypeError
  end.

#[global] Instance FileWithPath_eq_dec : EqDecision FileWithPath.t.
Proof. solve_decision. Defined.

#[global] Instance ArchiveType_eq_dec : EqDecision ArchiveType.t.
Proof. solve_decision. Defined.

(** ** ArchiveInfoReader *)

Module ArchiveInfoReader.

(** The three strategies share these lines:
<<
    const ext = s.split('.').pop();
    if (ext) { extensions.add(ext); }
>>
*)
Definition addExtension (s : string) (extensions : list string) : list string :=
  let ext := JS.pop (JS.split "." s) in
  match ext with
  | Some e => if JS.truthy ext then JSSet.add e extensions else extensions
  | None => extensions
  end.

(** Loop state of [readZipfile] and [readRarFile]. *)
Record counters := mkCounters {
  c_fileCount : nat;
  c_folderCount : nat;
  c_extensions : list string
}.

Definition counters0 : counters := mkCounters 0 0 [].

Definition zipStep (st : counters) (path : string) : counters :=
  if JS.endsWith path "/"
  then mkCounters (c_fileCount st) (S (c_folderCount st)) (c_extensions st)
  else mkCounters (S (c_fileCount st)) (c_folderCount st)
                  (addExtension path (c_extensions st)).

Definition rarStep (st : counters) (file : FileHeader.t) : counters :=
  if FileHeader.directory file
  then mkCounters (c_fileCount st) (S (c_folderCount st)) (c_extensions st)
  else mkCounters (S (c_fileCount st)) (c_folderCount st)
                  (addExtension (FileHeader.name file) (c_extensions st)).

Definition infoOf (archive : Archive.t) (st : counters) : ArchiveInfo.t :=
  ArchiveInfo.mk (Archive.name archive) (Archive.size archive)
                 (c_extensions st) (c_fileCount st) (c_folderCount st).

Section collaborators.
(** [Object.keys((await jszip.loadAsync(file)).files)]; the argument is
    [files[0]], [undefined] when the array is empty. *)
Variable zipPaths : option FileWithPath.t → promise (list string).
(** [_loadBuffer], [createExtractorFromData] and [getFileList] in
    sequence, down to the list of file headers.  [_loadBuffer] resolves on
    the reader's 'load' event only: when the read fails the chain stays
    [Pending]. *)
Variable rarFileHeaders : option FileWithPath.t → promise (list FileHeader.t).

Definition readZipfile (archive : Archive.t) : promise ArchiveInfo.t :=
  files ← nonNull (Archive.files archive);
  paths ← zipPaths (files !! 0%nat);
  Fulfilled (infoOf archive (foldl zipStep counters0 paths)).

Definition readRarFile (archive : Archive.t) : promise ArchiveInfo.t :=
  files ← nonNull (Archive.files archive);
  fileHeaders ← rarFileHeaders (files !! 0%nat);
  Fulfilled (infoOf archive (foldl rarStep counters0 fileHeaders)).
End collaborators.

(** The body of the inner loop of [readFolder].  The loop runs over
    [depth = 2 .. paths.length - 2], where [paths[depth]] is in range
    (lemma [registerFolders_in_range] below); out of range there is no
    segment to register. *)
Definition registerDepth (paths : list string)
    (folderTree : list (nat * list string)) (depth : nat)
    : list (nat * list string) :=
  let folderTree :=
    if JSMap.has depth folderTree then folderTree
    else JSMap.set depth [] folderTree in
  match paths !! depth with
  | Some segment => JSMap.mutate depth (JSSet.add segment) folderTree
  | None => folderTree
  end.

Definition registerFolders (paths : list string)
    (folderTree : list (nat * list string)) : list (nat * list string) :=
  if decide (3 < length paths)%nat
  then foldl (registerDepth paths) folderTree (seq 2 (length paths - 1 - 2))
  else folderTree.

(** Loop state of [readFolder]: [extensions] and [folderTree]. *)
Fixpoint readFolderLoop (files : list FileWithPath.t)
    (extensions : list string) (folderTree : list (nat * list string))
    : promise (list string * list (nat * list string)) :=
  match files with
  | [] => Fulfilled (extensions, folderTree)
  | file :: rest =>
      path ← nonNull (FileWithPath.path file);
      let paths := JS.split "/" path in
      let folderTree := registerFolders paths folderTree in
      let extensions := addExtension (FileWithPath.name file) extensions in
      readFolderLoop rest extensions folderTree
  end.

Definition countFolders (folderTree : list (nat * list string)) : nat :=
  foldl (λ folderCount folders, (folderCount + JSSet.size folders)%nat)
        0%nat (JSMap.values folderTree).

Definition readFolder (archive : Archive.t) : promise ArchiveInfo.t :=
  files ← nonNull (Archive.files archive);
  st ← readFolderLoop files [] [];
  Fulfilled (ArchiveInfo.mk (Archive.name archive) (Archive.size archive)
               st.1 (length files) (countFolders st.2)).

Section collaborators.
Variable zipPaths : option FileWithPath.t → promise (list string).
Variable rarFileHeaders : option FileWithPath.t → promise (list FileHeader.t).

Definition readArchiveInfo (archive : Archive.t) : promise ArchiveInfo.t :=
  match Archive.type archive with
  | ArchiveType.zip => readZipfile zipPaths archive
  | ArchiveType.rar => readRarFile rarFileHeaders archive
  | ArchiveType.folder => readFolder archive
  end.
End collaborators.

(** First loop of [preprocess]: zip and rar files become archives of
    their own, the rest is kept aside. *)
Definition classify (st : list Archive.t * list FileWithPath.t)
    (file : FileWithPath.t) : list Archive.t * list FileWithPath.t :=
  let '(archives, others) := st in
  if JS.endsWith (FileWithPath.name file) ".zip" then
    (archives ++ [Archive.mk (FileWithPath.name file) (FileWithPath.size file)
                    ArchiveType.zip (Some [file])], others)
  else if JS.endsWith (FileWithPath.name file) ".rar" then
    (archives ++ [Archive.mk (FileWithPath.name file) (FileWithPath.size file)
                    ArchiveType.rar (Some [file])], others)
  else (archives, others ++ [file]).

(** Second loop: group by [paths[1]].  A path that starts with '/' splits
    into at least two segments (lemma [split_startsWith_slash] below), so
    [paths[1]] is never [undefined] where it is read. *)
Definition groupStep (folders : list (string * list FileWithPath.t))
    (file : FileWithPath.t) : list (string * list FileWithPath.t) :=
  if negb (JS.truthy (FileWithPath.path file))
     || negb (match FileWithPath.path file with
              | Some p => JS.startsWith p "/"
              | None => false
              end)
  then folders
  else
    match FileWithPath.path file with
    | Some p =>
        let paths := JS.split "/" p in
        match paths !! 1%nat with
        | Some folder =>
            let folders :=
              if JSMap.has folder folders then folders
              else JSMap.set folder [] folders in
            JSMap.mutate folder (λ fs, fs ++ [file]) folders
        | None => folders
        end
    | None => folders
    end.

Definition totalSize (files : list FileWithPath.t) : Z :=
  foldl (λ sum file, JS.add sum (FileWithPath.size file)) 0 files.

(** Third loop: one folder archive per key, in the map's order. *)
Definition folderArchive (entry : string * list FileWithPath.t) : Archive.t :=
  let '(name, files) := entry in
  let totalSize := totalSize files in
  Archive.mk name totalSize ArchiveType.folder (Some files).

Definition emitFolder (archives : list Archive.t)
    (entry : string * list FileWithPath.t) : list Archive.t :=
  archives ++ [folderArchive entry].

(** [preprocess] is [async] but awaits nothing and never throws. *)
Definition preprocess (files : list FileWithPath.t) : list Archive.t :=
  let '(archives, others) := foldl classify ([], []) files in
  let folders := foldl groupStep [] others in
  foldl emitFolder archives folders.

End ArchiveInfoReader.

(** ** MoelistFormatter *)

Module SizeType.
Inductive t := XXS | XS | S | M | L | XL | XXL | XXXL.

(** The string a [SizeType] value is. *)
Definition label (x : t) : string :=
  match x with
  | XXS => "XXS" | XS => "XS" | S => "S" | M => "M"
  | L => "L" | XL => "XL" | XXL => "XXL" | XXXL => "XXXL"
  end.

(** Position in the ordering XXS < XS < S < M < L < XL < XXL < XXXL. *)
Definition rank (x : t) : nat :=
  match x with
  | XXS => 0 | XS => 1 | S => 2 | M => 3
  | L => 4 | XL => 5 | XXL => 6 | XXXL => 7
  end.
End SizeType.

Module MoelistFormatter.

Definition version : string := "moelist v0.0.1".

(** The line separator ['\n']. *)
Definition LF : string := String "010"%char "".

(** [size / 1024 / 1024] divides by a power of two, which is exact in
    binary floating point: on a byte count the quotient is the rational
    number, and the comparisons are those of [Q]. *)
Definition getSizeType (size : Z) : SizeType.t :=
  let sizeMB := (inject_Z size / 1024 / 1024)%Q in
  if Qlt_le_dec sizeMB 20 then SizeType.XXS
  else if Qlt_le_dec sizeMB 50 then SizeType.XS
  else if Qlt_le_dec sizeMB 100 then SizeType.S
  else if Qlt_le_dec sizeMB 175 then SizeType.M
  else if Qlt_le_dec sizeMB 300 then SizeType.L
  else if Qlt_le_dec sizeMB 500 then SizeType.XL
  else if Qlt_le_dec sizeMB 800 then SizeType.XXL
  else SizeType.XXXL.

(** The running totals of the two rendering loops. *)
Record totals := mkTotals {
  totalSize : Z;
  totalFiles : nat;
  totalFolders : nat
}.

Definition accumulate (t : totals) (info : ArchiveInfo.t) : totals :=
  mkTotals (JS.add (totalSize t) (ArchiveInfo.size info))
           (JS.addNat (totalFiles t) (ArchiveInfo.fileCount info))
           (JS.addNat (totalFolders t) (ArchiveInfo.folderCount info)).

Section locale.
(** [Number.prototype.toLocaleString], which depends on the host's
    locale. *)
Variable toLocaleString : Z → string.

Definition previewHeader : string :=
  "        Size Type Summary                  Extensions   Name".
Definition previewDivider : string :=
  "------------ ---- ------------------------ ------------ ------------------------".

Definition previewLine (info : ArchiveInfo.t) : string :=
  let size := toLocaleString (ArchiveInfo.size info) in
  let type := SizeType.label (getSizeType (ArchiveInfo.size info)) in
  let fileCount := ArchiveInfo.fileCount info in
  let folderCount := ArchiveInfo.folderCount info in
  let summary := pretty fileCount +:+ " files, " +:+ pretty folderCount +:+ " folders" in
  let extensions := JS.join ", " (ArchiveInfo.exts info) in
  let name := ArchiveInfo.name info in
  JS.padStart 12 size +:+ " " +:+ JS.padStart 4 type +:+ " " +:+
  JS.padEnd 24 summary +:+ " " +:+ JS.padEnd 12 extensions +:+ " " +:+ name.

(** The last line pushed by [getPreviewStyle]. *)
Definition previewTotals (t : totals) : string :=
  JS.padStart 12 (toLocaleString (totalSize t)) +:+ "      " +:+
  pretty (totalFiles t) +:+ " files, " +:+ pretty (totalFolders t) +:+ " folders".

Definition previewStep (st : list string * totals) (info : ArchiveInfo.t)
    : list string * totals :=
  let '(lines, t) := st in (lines ++ [previewLine info], accumulate t info).

Definition getPreviewStyle (infos : list ArchiveInfo.t) : string :=
  if decide (length infos = 0%nat) then "" else
  let header := previewHeader in
  let divider := previewDivider in
  let '(lines, t) := foldl previewStep ([header; divider], mkTotals 0 0 0) infos in
  let lines := lines ++ [divider] in
  let lines := lines ++ [previewTotals t] in
  JS.join LF lines.

Definition getCodeStyle (infos : list ArchiveInfo.t) : string :=
  if decide (length infos = 0%nat) then "" else
  let quoteStart := "[quote][font=courier new, courier, monospace]" in
  let quoteEnd := "[/font][/quote]" in
  let content := getPreviewStyle infos in
  let lines := [quoteStart; version; content; quoteEnd] in
  JS.join LF lines.

Definition tableStart : string :=
  "[table=100%][tr]" +:+
  "[td]档案[/td]" +:+
  "[td][align=right]体积[/align][/td]" +:+
  "[td][align=right]体积类型[/align][/td]" +:+
  "[td][align=right]文件数[/align][/td]" +:+
  "[td][align=right]文件夹数[/align][/td]" +:+
  "[td]扩展名[/td][/tr]".

Definition tableLine (info : ArchiveInfo.t) : string :=
  let size := toLocaleString (ArchiveInfo.size info) in
  let type := SizeType.label (getSizeType (ArchiveInfo.size info)) in
  let fileCount := ArchiveInfo.fileCount info in
  let folderCount := ArchiveInfo.folderCount info in
  let extensions := JS.join ", " (ArchiveInfo.exts info) in
  let name := ArchiveInfo.name info in
  "[tr][td]" +:+ name +:+ "[/td]" +:+
  "[td][align=right]" +:+ size +:+ "[/align][/td]" +:+
  "[td][align=right]" +:+ type +:+ "[/align][/td]" +:+
  "[td][align=right]" +:+ pretty fileCount +:+ "[/align][/td]" +:+
  "[td][align=right]" +:+ pretty folderCount +:+ "[/align][/td]" +:+
  "[td]" +:+ extensions +:+ "[/td][/tr]".

(** The [counter] row of [getTableStyle]. *)
Definition tableTotals (t : totals) : string :=
  "[tr][td]总计[/td]" +:+
  "[td][align=right]" +:+ toLocaleString (totalSize t) +:+ "[/align][/td]" +:+
  "[td][/td]" +:+
  "[td][align=right]" +:+ pretty (totalFiles t) +:+ "[/align][/td]" +:+
  "[td][align=right]" +:+ pretty (totalFolders t) +:+ "[/align][/td]" +:+
  "[td][/td][/tr]" +:+
  "[/table]".

Definition tableStep (st : list string * totals) (info : ArchiveInfo.t)
    : list string * totals :=
  let '(lines, t) := st in (lines ++ [tableLine info], accumulate t info).

Definition getTableStyle (infos : list ArchiveInfo.t) : string :=
  if decide (length infos = 0%nat) then "" else
  let quoteStart := "[quote]" in
  let quoteEnd := "[/quote]" in
  let '(lines, t) := foldl tableStep ([quoteStart; version; tableStart], mkTotals 0 0 0) infos in
  let counter := tableTotals t in
  let lines := lines ++ [counter] in
  let lines := lines ++ [quoteEnd] in
  JS.join LF lines.
End locale.

End MoelistFormatter.

(** ** Notions the specification is phrased in *)

Module Spec.

(** The files array of an archive, empty when absent. *)
Definition members (archive : Archive.t) : list FileWithPath.t :=
  default [] (Archive.files archive).

(** All the members of a sequence of archives, archive after archive. *)
Definition allMembers (archives : list Archive.t) : list FileWithPath.t :=
  archive ← archives; members archive.

Definition isZip (file : FileWithPath.t) : bool :=
  JS.endsWith (FileWithPath.name file) ".zip".

Definition isRar (file : FileWithPath.t) : bool :=
  JS.endsWith (FileWithPath.name file) ".rar".

Definition isContainer (file : FileWithPath.t) : bool :=
  isZip file || isRar file.

Definition hasRootedPath (file : FileWithPath.t) : bool :=
  match FileWithPath.path file with
  | Some p => JS.startsWith p "/"
  | None => false
  end.

(** An entry that grouping keeps: a zip, a rar, or a file whose path
    starts with the separator. *)
Definition groupable (file : FileWithPath.t) : bool :=
  isContainer file || hasRootedPath file.

(** The archive a zip or rar file stands for. *)
Definition containerArchive (file : FileWithPath.t) : Archive.t :=
  Archive.mk (FileWithPath.name file) (FileWithPath.size file)
    (if isZip file then ArchiveType.zip else ArchiveType.rar)
    (Some [file]).

(** The first path segment after the leading separator. *)
Definition topFolder (file : FileWithPath.t) : option string :=
  if hasRootedPath file
  then p ← FileWithPath.path file; JS.split "/" p !! 1%nat
  else None.

(** The distinct elements of a list, each at its first occurrence. *)
Fixpoint firstSeen (l : list string) : list string :=
  match l with
  | [] => []
  | x :: l' => x :: filter (λ y, y ≠ x) (firstSeen l')
  end.

(** The intermediate segments of one path with their depths: the
    segments at index 2 and above, the final one excluded, of a path of
    more than 3 segments. *)
Definition intermediateSegments (path : string) : list (nat * string) :=
  let segments := JS.split "/" path in
  if decide (3 < length segments)%nat
  then drop 2 (take (length segments - 1) (imap pair segments))
  else [].

Definition depthNamePairs (files : list FileWithPath.t) : list (nat * string) :=
  file ← files;
  match FileWithPath.path file with
  | Some p => intermediateSegments p
  | None => []
  end.

Definition distinctDepthNamePairs (files : list FileWithPath.t) : nat :=
  size (list_to_set (C := gset (nat * string)) (depthNamePairs files)).

(** The (depth, name) pairs a folder tree records. *)
Definition treePairs (folderTree : list (nat * list string)) : list (nat * string) :=
  entry ← folderTree; pair entry.1 <$> entry.2.

(** A folder tree as a [Map] of [Set]s: no key twice, no name twice under
    a key. *)
Definition wellFormedTree (folderTree : list (nat * list string)) : Prop :=
  NoDup folderTree.*1 ∧ Forall (λ entry, NoDup entry.2) folderTree.





(** The batch of the specification's grouping example.  The entries are
    given once under their base names and once under the relative names
    the example writes them with. *)
Definition exampleBatch (relativeNames : bool) : list FileWithPath.t :=
  let named dir base := if relativeNames then dir +:+ base else base in
  [ FileWithPath.mk (named "a/" "x.txt") 10 (Some "/a/x.txt");
    FileWithPath.mk (named "a/" "y.txt") 20 (Some "/a/y.txt");
    FileWithPath.mk (named "a/sub/" "z.txt") 5 (Some "/a/sub/z.txt") ].

(** A batch that interleaves a zip file, a loose file and the members of
    two folders. *)
Definition mixedBatch : list FileWithPath.t :=
  [ FileWithPath.mk "x.txt" 10 (Some "/a/x.txt");
    FileWithPath.mk "pack.zip" 3 None;
    FileWithPath.mk "y.txt" 20 (Some "/b/y.txt");
    FileWithPath.mk "loose.txt" 4 (Some "loose.txt");
    FileWithPath.mk "z.txt" 5 (Some "/a/sub/z.txt") ].

(** The members of a folder [a] whose sub-folder [x] holds a sub-folder
    of the same name. *)
Definition nestedMembers : list FileWithPath.t :=
  [ FileWithPath.mk "f.txt" 1 (Some "/a/x/x/f.txt");
    FileWithPath.mk "g.txt" 2 (Some "/a/x/g.txt");
    FileWithPath.mk "h.txt" 3 (Some "/a/x/x/h.txt") ].

(** Whether the character [c] occurs in [s]. *)
Fixpoint occurs (c : ascii) (s : string) : bool :=
  match s with
  | EmptyString => false
  | String c' s' => bool_decide (c' = c) || occurs c s'
  end.

(** The totals line of the preview report for given totals: the size,
    formatted for the locale and right-justified to 12 characters, six
    spaces, then "N files, M folders". *)
Definition previewSummaryRow (toLocaleString : Z → string)
    (size : Z) (files folders : nat) : string :=
  JS.padStart 12 (toLocaleString size) +:+ "      " +:+
  pretty files +:+ " files, " +:+ pretty folders +:+ " folders".

(** The totals row of the table report for given totals: a row labelled
    总计 with the size, an empty size-type cell, the two counts and an empty
    extensions cell, closing the table. *)
Definition tableSummaryRow (toLocaleString : Z → string)
    (size : Z) (files folders : nat) : string :=
  "[tr][td]总计[/td]" +:+
  "[td][align=right]" +:+ toLocaleString size +:+ "[/align][/td]" +:+
  "[td][/td]" +:+
  "[td][align=right]" +:+ pretty files +:+ "[/align][/td]" +:+
  "[td][align=right]" +:+ pretty folders +:+ "[/align][/td]" +:+
  "[td][/td][/tr]" +:+
  "[/table]".

(** The lines of the preview report of a list that has a record, for
    given totals: header and divider, one line per record in the order of
    the list, the divider again, and the totals line. *)
Definition previewLines (toLocaleString : Z → string)
    (infos : list ArchiveInfo.t) (size : Z) (files folders : nat)
    : list string :=
  [MoelistFormatter.previewHeader; MoelistFormatter.previewDivider]
    ++ (MoelistFormatter.previewLine toLocaleString <$> infos)
    ++ [MoelistFormatter.previewDivider;
        previewSummaryRow toLocaleString size files folders].

(** The lines of the table report of a list that has a record, for given
    totals: the quote and version lines and the table header, one row per
    record in the order of the list, the totals row, and the closing
    quote. *)
Definition tableLines (toLocaleString : Z → string)
    (infos : list ArchiveInfo.t) (size : Z) (files folders : nat)
    : list string :=
  ["[quote]"; MoelistFormatter.version; MoelistFormatter.tableStart]
    ++ (MoelistFormatter.tableLine toLocaleString <$> infos)
    ++ [tableSummaryRow toLocaleString size files folders; "[/quote]"].



(** [n.toLocaleString()] of an integer on a host whose locale is en-US:
    the decimal digits in groups of three separated by commas. *)
Fixpoint groupReversed (n : nat) (digits : list ascii) : list ascii :=
  match digits with
  | [] => []
  | d :: ds =>
      match n with
      | O => ","%char :: d :: groupReversed 2 ds
      | S n' => d :: groupReversed n' ds
      end
  end.

Definition groupDigits (digits : string) : string :=
  String.string_of_list_ascii
    (rev (groupReversed 3 (rev (String.list_ascii_of_string digits)))).

Definition enUS (z : Z) : string :=
  if z <? 0 then "-" +:+ groupDigits (pretty (- z))
  else groupDigits (pretty z).



(** [size] compared with a threshold given in megabytes. *)
Definition belowMB (size mb : Z) : bool := size <? mb * 1024 * 1024.

(** The tiers as the specification lists them: XXS below 20MB, XS below
    50, S below 100, M below 175, L below 300, XL below 500, XXL below
    800, XXXL from 800 on. *)
Definition tierOf (size : Z) : SizeType.t :=
  if belowMB size 20 then SizeType.XXS
  else if belowMB size 50 then SizeType.XS
  else if belowMB size 100 then SizeType.S
  else if belowMB size 175 then SizeType.M
  else if belowMB size 300 then SizeType.L
  else if belowMB size 500 then SizeType.XL
  else if belowMB size 800 then SizeType.XXL
  else SizeType.XXXL.

(** The entries of a zip index that stand for files, and those that stand
    for folders: an entry is a folder when its path ends in '/'. *)
Definition zipFiles (paths : list string) : list string :=
  filter (λ p, ¬ JS.endsWith p "/") paths.

Definition zipFolders (paths : list string) : list string :=
  filter (λ p, JS.endsWith p "/") paths.

(** The headers of a rar file list that stand for files, and those that
    stand for folders. *)
Definition rarFiles (headers : list FileHeader.t) : list FileHeader.t :=
  filter (λ h, ¬ FileHeader.directory h) headers.

Definition rarFolders (headers : list FileHeader.t) : list FileHeader.t :=
  filter (λ h, FileHeader.directory h) headers.

(** [ext] is what the name [s] is recorded under: the text after its last
    '.', the whole of [s] when it has none, provided that text is not
    empty. *)
Definition recordedAs (s ext : string) : Prop :=
  ext ≠ "" ∧ last (JS.split "." s) = Some ext.

(** Sums of sizes. *)
Definition sumFileSizes (files : list FileWithPath.t) : Z :=
  foldr (λ file acc, FileWithPath.size file + acc) 0 files.

Definition sumArchiveSizes (archives : list Archive.t) : Z :=
  foldr (λ archive acc, Archive.size archive + acc) 0 archives.

(** The folder archives of a sequence of archives. *)
Definition folderArchives (archives : list Archive.t) : list Archive.t :=
  filter (λ a, Archive.type a = ArchiveType.folder) archives.

(** A zip index with two folders, a file without extension marker at the
    end of its name, and two text files. *)
Definition sampleIndex : list string :=
  ["docs/"; "docs/notes."; "docs/a.txt"; "src/"; "src/b.txt"].

Definition sampleZip : Archive.t :=
  Archive.mk "docs.zip" 7 ArchiveType.zip (Some [FileWithPath.mk "docs.zip" 7 None]).

(** A rar file list with one folder and two files. *)
Definition sampleHeaders : list FileHeader.t :=
  [ FileHeader.mk "docs" true;
    FileHeader.mk "docs/a.txt" false;
    FileHeader.mk "docs/b.md" false ].

Definition sampleRar : Archive.t :=
  Archive.mk "docs.rar" 9 ArchiveType.rar (Some [FileWithPath.mk "docs.rar" 9 None]).

Definition sampleFolder : Archive.t :=
  Archive.mk "a" 6 ArchiveType.folder (Some nestedMembers).

(** Files whose sizes grouping adds up exactly: sizes that are not
    negative, with a sum of at most 2^53. *)
Definition exactSizes (files : list FileWithPath.t) : Prop :=
  Forall (λ f, 0 ≤ FileWithPath.size f) files
  ∧ sumFileSizes files ≤ 2 ^ 53.

(** The folder archive [a] of [mixedBatch]. *)
Definition mixedFolderA : Archive.t :=
  Archive.mk "a" 15 ArchiveType.folder
    (Some [ FileWithPath.mk "x.txt" 10 (Some "/a/x.txt");
            FileWithPath.mk "z.txt" 5 (Some "/a/sub/z.txt") ]).

(** The zip archive of [mixedBatch]. *)
Definition mixedZip : Archive.t :=
  Archive.mk "pack.zip" 3 ArchiveType.zip
    (Some [FileWithPath.mk "pack.zip" 3 None]).

End Spec.

(** ** SizeClassifier *)

Section SizeClassifier.
Import MoelistFormatter.

(** The megabyte comparison of the source is a comparison of byte
    counts. *)
Lemma sizeMB_lt (size mb : Z) :
  (inject_Z size / 1024 / 1024 < inject_Z mb)%Q ↔ Spec.belowMB size mb = true.
Proof.
  unfold Spec.belowMB. rewrite Z.ltb_lt.
  unfold Qlt, Qdiv, Qmult, Qinv, inject_Z; simpl. lia.
Qed.

Lemma sizeMB_dec (size : Z) (mb : Q) (A : Type) (x y : A) :
  mb = inject_Z (Qnum mb) →
  (if Qlt_le_dec (inject_Z size / 1024 / 1024) mb then x else y)
  = (if Spec.belowMB size (Qnum mb) then x else y).
Proof.
  intros Hmb. destruct (Qlt_le_dec _ _) as [Hlt | Hle].
  - rewrite Hmb in Hlt. apply sizeMB_lt in Hlt. by rewrite Hlt.
  - apply Qle_not_lt in Hle. rewrite Hmb, sizeMB_lt in Hle.
    by destruct (Spec.belowMB size (Qnum mb)).
Qed.

Lemma getSizeType_tierOf (size : Z) : getSizeType size = Spec.tierOf size.
Proof.
  unfold getSizeType, Spec.tierOf.
  by rewrite !sizeMB_dec.
Qed.

Lemma tierOf_mono (a b : Z) :
  a ≤ b → (SizeType.rank (Spec.tierOf a) ≤ SizeType.rank (Spec.tierOf b))%nat.
Proof.
  intros Hab. unfold Spec.tierOf, Spec.belowMB.
  repeat case_match; simpl; try lia;
    repeat match goal with
    | H : (_ <? _) = true |- _ => apply Z.ltb_lt in H
    | H : (_ <? _) = false |- _ => apply Z.ltb_ge in H
    end; lia.
Qed.
End SizeClassifier.

Section SizeClassifierClaims.
Import MoelistFormatter.

(** C5: [getSizeType] applied to exactly 20*1024*1024 bytes returns XS,
    not XXS.  Every threshold is an exclusive upper bound: a tier holds
    exactly the sizes from the previous threshold (included) up to its own
    (excluded), so a size on a boundary falls into the higher tier. *)
Theorem getSizeType_boundary_exclusive :
  getSizeType (20 * 1024 * 1024) = SizeType.XS
  ∧ getSizeType (20 * 1024 * 1024) ≠ SizeType.XXS
  ∧ ∀ size : Z,
      (getSizeType size = SizeType.XXS ↔ size < 20 * 1024 * 1024)
      ∧ (getSizeType size = SizeType.XS ↔ 20 * 1024 * 1024 ≤ size < 50 * 1024 * 1024)
      ∧ (getSizeType size = SizeType.S ↔ 50 * 1024 * 1024 ≤ size < 100 * 1024 * 1024)
      ∧ (getSizeType size = SizeType.M ↔ 100 * 1024 * 1024 ≤ size < 175 * 1024 * 1024)
      ∧ (getSizeType size = SizeType.L ↔ 175 * 1024 * 1024 ≤ size < 300 * 1024 * 1024)
      ∧ (getSizeType size = SizeType.XL ↔ 300 * 1024 * 1024 ≤ size < 500 * 1024 * 1024)
      ∧ (getSizeType size = SizeType.XXL ↔ 500 * 1024 * 1024 ≤ size < 800 * 1024 * 1024)
      ∧ (getSizeType size = SizeType.XXXL ↔ 800 * 1024 * 1024 ≤ size).
Proof.
  split; [by vm_compute |]. split; [by vm_compute |].
  intros size. rewrite getSizeType_tierOf.
  unfold Spec.tierOf, Spec.belowMB.
  repeat match goal with
  | |- context [?x <? ?y] =>
      let H := fresh in destruct (Z.ltb_spec x y) as [H | H]
  end;
  repeat split; intros; try discriminate; try lia.
Qed.

(** C6: [getSizeType] is total and monotone.  For a non-negative byte
    count [a] it returns exactly one tier, and whenever [a < b] the tier
    of [a] is at most the tier of [b] in the ordering
    XXS < XS < S < M < L < XL < XXL < XXXL. *)
Theorem getSizeType_total_monotone (a b : Z) :
  0 ≤ a → a < b →
  (∃ t, getSizeType a = t ∧ ∀ t', getSizeType a = t' → t' = t)
  ∧ (SizeType.rank (getSizeType a) ≤ SizeType.rank (getSizeType b))%nat.
Proof.
  intros _ Hab. split.
  - exists (getSizeType a). split; [done | by intros t' <-].
  - rewrite !getSizeType_tierOf. apply tierOf_mono. lia.
Qed.

Lemma getSizeType_total_monotone_witness :
  0 ≤ 30 * 1024 * 1024
  ∧ 30 * 1024 * 1024 < 600 * 1024 * 1024
  ∧ (∃ t, getSizeType (30 * 1024 * 1024) = t
          ∧ ∀ t', getSizeType (30 * 1024 * 1024) = t' → t' = t)
  ∧ (SizeType.rank (getSizeType (30 * 1024 * 1024))
     ≤ SizeType.rank (getSizeType (600 * 1024 * 1024)))%nat.
Proof.
  split; [lia |]. split; [lia |].
  apply (getSizeType_total_monotone (30 * 1024 * 1024) (600 * 1024 * 1024)); lia.
Defined.
End SizeClassifierClaims.

(** ** Strings *)

Section Strings.

Lemma append_empty (t : string) : "" +:+ t = t.
Proof. reflexivity. Qed.

Lemma append_String (c : ascii) (s t : string) :
  String c s +:+ t = String c (s +:+ t).
Proof. reflexivity. Qed.

Lemma split_nonempty (sep : ascii) (s : string) : JS.split sep s ≠ [].
Proof.
  destruct s as [| c s]; simpl; [done |].
  case_decide; [done |]. by destruct (JS.split sep s).
Qed.

Lemma split_cons_sep (sep : ascii) (s : string) :
  JS.split sep (String sep s) = "" :: JS.split sep s.
Proof. simpl. by rewrite decide_True. Qed.

(** A string without the separator is a single segment: itself. *)
Lemma split_no_sep (sep : ascii) (s : string) :
  Spec.occurs sep s = false → JS.split sep s = [s].
Proof.
  induction s as [| c s IH]; simpl; [done |].
  intros [Hc Hs]%orb_false_iff. apply bool_decide_eq_false in Hc.
  rewrite decide_False by done. by rewrite IH.
Qed.

(** Appending the separator appends an empty segment. *)
Lemma split_snoc_sep (sep : ascii) (s : string) :
  JS.split sep (s +:+ String sep "") = JS.split sep s ++ [""].
Proof.
  induction s as [| c s IH]; [by rewrite append_empty, split_cons_sep |].
  rewrite append_String. simpl.
  - case_decide; [by rewrite IH |].
    rewrite IH. pose proof (split_nonempty sep s).
    by destruct (JS.split sep s).
Qed.

Lemma substring_full (s : string) :
  String.substring 0 (String.length s) s = s.
Proof. induction s as [| c s IH]; simpl; [done | by rewrite IH]. Qed.

Lemma substring_cut (n m : nat) (s : string) :
  (n + m)%nat = String.length s →
  s = String.substring 0 n s +:+ String.substring n m s.
Proof.
  revert s. induction n as [| n IH]; intros s Hlen; simpl in Hlen.
  - subst m. rewrite substring_full. by destruct s.
  - destruct s as [| c s]; simpl in *; [lia |].
    rewrite append_String, <-IH by lia. done.
Qed.

(** [endsWith] holds exactly of the strings that have the suffix. *)
Lemma endsWith_inv (s suf : string) :
  JS.endsWith s suf = true → ∃ s', s = s' +:+ suf.
Proof.
  unfold JS.endsWith. case_decide as Hle; [| done].
  intros Heq%String.eqb_eq.
  exists (String.substring 0 (String.length s - String.length suf) s).
  pose proof (substring_cut (String.length s - String.length suf)
                (String.length suf) s) as Hcut.
  rewrite Heq in Hcut. apply Hcut. lia.
Qed.

Lemma startsWith_slash_inv (p : string) :
  JS.startsWith p "/" = true → ∃ rest, p = String "/" rest.
Proof.
  unfold JS.startsWith. destruct p as [| c p]; cbn [String.prefix]; [done |].
  destruct (Ascii.ascii_dec "/" c) as [<- | ?]; [eauto | done].
Qed.

(** A path that starts with '/' has an empty segment 0 and a segment 1. *)
Lemma split_startsWith_slash (p : string) :
  JS.startsWith p "/" = true →
  ∃ folder rest, JS.split "/" p = "" :: folder :: rest.
Proof.
  intros [rest ->]%startsWith_slash_inv. rewrite split_cons_sep.
  pose proof (split_nonempty "/" rest).
  destruct (JS.split "/" rest) as [| folder segs]; [done | eauto].
Qed.

End Strings.

(** ** Insertion-ordered sets *)

Section JSSetFacts.
Context {T : Type} `{EqDecision T}.

Lemma elem_of_add (x y : T) (s : list T) :
  x ∈ JSSet.add y s ↔ x = y ∨ x ∈ s.
Proof.
  unfold JSSet.add. case_decide as Hy.
  - split; [by right | by intros [-> | ?]].
  - rewrite elem_of_app, list_elem_of_singleton. tauto.
Qed.

Lemma NoDup_add (y : T) (s : list T) :
  NoDup s → NoDup (JSSet.add y s).
Proof.
  intros Hs. unfold JSSet.add. case_decide; [done |].
  apply NoDup_app. split_and!; [done | | apply NoDup_singleton].
  intros x Hx ->%list_elem_of_singleton. done.
Qed.
End JSSetFacts.

(** ** Extension extraction *)

Section Extensions.
Import ArchiveInfoReader.

(** What the shared lines do, by cases on the last segment. *)
Lemma addExtension_last (s : string) (extensions : list string) (ext : string) :
  last (JS.split "." s) = Some ext →
  addExtension s extensions
  = if decide (ext = "") then extensions else JSSet.add ext extensions.
Proof.
  unfold addExtension, JS.pop. intros ->. simpl.
  case_decide as Hext; [by subst |].
  by apply String.eqb_neq in Hext as ->.
Qed.

(** A name without '.' is, unless empty, recorded whole. *)
Lemma addExtension_no_dot (s : string) (extensions : list string) :
  Spec.occurs "." s = false → s ≠ "" →
  addExtension s extensions = JSSet.add s extensions.
Proof.
  intros Hdot Hs. rewrite (addExtension_last _ _ s).
  - by rewrite decide_False.
  - by rewrite split_no_sep.
Qed.

(** A name that ends in '.' records nothing. *)
Lemma addExtension_trailing_dot (s : string) (extensions : list string) :
  JS.endsWith s "." = true → addExtension s extensions = extensions.
Proof.
  intros [s' ->]%endsWith_inv. rewrite (addExtension_last _ _ "").
  - done.
  - by rewrite split_snoc_sep, last_snoc.
Qed.

Lemma addExtension_not_empty (s : string) (extensions : list string) :
  "" ∉ extensions → "" ∉ addExtension s extensions.
Proof.
  intros Hexts. unfold addExtension.
  destruct (JS.pop (JS.split "." s)) as [ext |] eqn:Hpop; [| done].
  simpl. destruct (String.eqb_spec ext "") as [-> | Hne]; simpl; [done |].
  by intros [? | ?]%elem_of_add.
Qed.

Lemma zipStep_not_empty (paths : list string) (st : counters) :
  "" ∉ c_extensions st → "" ∉ c_extensions (foldl zipStep st paths).
Proof.
  revert st. induction paths as [| path paths IH]; intros st Hst; simpl; [done |].
  apply IH. unfold zipStep. case_match; simpl; [done |].
  by apply addExtension_not_empty.
Qed.

Lemma rarStep_not_empty (headers : list FileHeader.t) (st : counters) :
  "" ∉ c_extensions st → "" ∉ c_extensions (foldl rarStep st headers).
Proof.
  revert st. induction headers as [| file headers IH]; intros st Hst; simpl; [done |].
  apply IH. unfold rarStep. case_match; simpl; [done |].
  by apply addExtension_not_empty.
Qed.

Lemma readFolderLoop_not_empty (files : list FileWithPath.t)
    (extensions : list string) (folderTree : list (nat * list string)) st :
  "" ∉ extensions →
  readFolderLoop files extensions folderTree = Fulfilled st →
  "" ∉ st.1.
Proof.
  revert extensions folderTree.
  induction files as [| file files IH]; intros extensions folderTree Hexts; simpl.
  - by intros [= <-].
  - destruct (FileWithPath.path file) as [p |]; simpl; [| done].
    apply IH. by apply addExtension_not_empty.
Qed.

(** C1: a member path without '.' is expected to yield no extension and
    to leave the extension set alone.  The code records the whole path
    instead: the zip entry [README], the rar header [README] and the
    folder member named [README] each come out with [README] among the
    extensions. *)
Theorem dotless_name_recorded_as_extension :
  Spec.occurs "." "README" = false
  ∧ readZipfile (λ _, Fulfilled ["README"])
      (Archive.mk "docs.zip" 7 ArchiveType.zip
         (Some [FileWithPath.mk "docs.zip" 7 None]))
    = Fulfilled (ArchiveInfo.mk "docs.zip" 7 ["README"] 1 0)
  ∧ readRarFile (λ _, Fulfilled [FileHeader.mk "README" false])
      (Archive.mk "docs.rar" 7 ArchiveType.rar
         (Some [FileWithPath.mk "docs.rar" 7 None]))
    = Fulfilled (ArchiveInfo.mk "docs.rar" 7 ["README"] 1 0)
  ∧ readFolder
      (Archive.mk "docs" 7 ArchiveType.folder
         (Some [FileWithPath.mk "README" 7 (Some "/docs/README")]))
    = Fulfilled (ArchiveInfo.mk "docs" 7 ["README"] 1 0).
Proof. by vm_compute. Qed.

(** C10: whatever the type of the archive and whatever the decoders
    return, the [exts] of the record produced never holds the empty
    string; a member name that ends in '.' contributes no extension. *)
Theorem exts_never_hold_empty_string :
  (∀ zipPaths rarFileHeaders archive info,
     readArchiveInfo zipPaths rarFileHeaders archive = Fulfilled info →
     "" ∉ ArchiveInfo.exts info)
  ∧ (∀ name extensions,
       JS.endsWith name "." = true → addExtension name extensions = extensions).
Proof.
  split; [| apply addExtension_trailing_dot].
  intros zipPaths rarFileHeaders archive info.
  unfold readArchiveInfo, readZipfile, readRarFile, readFolder.
  destruct (Archive.type archive), (Archive.files archive) as [files |];
    simpl; try done.
  - destruct (zipPaths _) as [paths | |]; simpl; [| done | done].
    intros [= <-]. simpl. apply zipStep_not_empty. simpl. apply not_elem_of_nil.
  - destruct (rarFileHeaders _) as [headers | |]; simpl; [| done | done].
    intros [= <-]. simpl. apply rarStep_not_empty. simpl. apply not_elem_of_nil.
  - destruct (readFolderLoop files [] []) as [st | |] eqn:Hloop; simpl;
      [| done | done].
    intros [= <-]. simpl.
    eapply readFolderLoop_not_empty; [| done]. apply not_elem_of_nil.
Qed.

Lemma exts_never_hold_empty_string_witness :
  readArchiveInfo (λ _, Fulfilled ["docs/"; "docs/notes."; "docs/a.txt"])
    (λ _, Rejected DecodeError)
    (Archive.mk "docs.zip" 7 ArchiveType.zip
       (Some [FileWithPath.mk "docs.zip" 7 None]))
  = Fulfilled (ArchiveInfo.mk "docs.zip" 7 ["txt"] 2 1)
  ∧ "" ∉ ["txt"].
Proof.
  split; [by vm_compute |].
  apply (proj1 exts_never_hold_empty_string
           (λ _, Fulfilled ["docs/"; "docs/notes."; "docs/a.txt"])
           (λ _, Rejected DecodeError)
           (Archive.mk "docs.zip" 7 ArchiveType.zip
              (Some [FileWithPath.mk "docs.zip" 7 None]))
           (ArchiveInfo.mk "docs.zip" 7 ["txt"] 2 1)).
  by vm_compute.
Defined.

End Extensions.

(** ** Insertion-ordered maps *)

Section JSMapFacts.
Context {K V : Type} `{EqDecision K}.
Implicit Types (k : K) (v : V) (m : list (K * V)).

Lemma has_nil k : JSMap.has k ([] : list (K * V)) = false.
Proof. apply bool_decide_eq_false. simpl. by intros [? ?]. Qed.

Lemma has_cons_eq k v m : JSMap.has k ((k, v) :: m) = true.
Proof. apply bool_decide_eq_true. simpl. rewrite decide_True by done. eauto. Qed.

Lemma has_cons_ne k k' v m :
  k ≠ k' → JSMap.has k ((k', v) :: m) = JSMap.has k m.
Proof. intros Hne. unfold JSMap.has. simpl. by rewrite decide_False. Qed.

Lemma has_false_keys k m : JSMap.has k m = false → k ∉ m.*1.
Proof.
  induction m as [| [k' v] m IH]; [intros _; apply not_elem_of_nil |].
  destruct (decide (k = k')) as [-> | Hne].
  - by rewrite has_cons_eq.
  - rewrite has_cons_ne, fmap_cons by done. intros Hhas%IH.
    by intros [? | ?]%elem_of_cons.
Qed.

(** [set] on a key the map does not have appends an entry. *)
Lemma set_fresh k v m : JSMap.has k m = false → JSMap.set k v m = m ++ [(k, v)].
Proof.
  induction m as [| [k' v'] m IH]; [done |]. simpl.
  destruct (decide (k = k')) as [-> | Hne].
  - by rewrite has_cons_eq.
  - rewrite has_cons_ne by done. by intros ->%IH.
Qed.

(** The idiom of both grouping loops,
<<
    if (!m.has(k)) { m.set(k, v0); }
    m.get(k)?.f();
>>
    walks down the map to the entry of [k], or appends one. *)
Lemma ensure_mutate_nil k v0 (f : V → V) :
  JSMap.mutate k f (if JSMap.has k ([] : list (K * V)) then []
                    else JSMap.set k v0 [])
  = [(k, f v0)].
Proof. rewrite has_nil. simpl. by rewrite decide_True. Qed.

Lemma ensure_mutate_cons k v0 (f : V → V) k' v m :
  JSMap.mutate k f (if JSMap.has k ((k', v) :: m) then (k', v) :: m
                    else JSMap.set k v0 ((k', v) :: m))
  = if decide (k = k') then (k', f v) :: m
    else (k', v) :: JSMap.mutate k f (if JSMap.has k m then m
                                      else JSMap.set k v0 m).
Proof.
  destruct (decide (k = k')) as [-> | Hne].
  - rewrite has_cons_eq. simpl. by rewrite decide_True.
  - rewrite has_cons_ne by done.
    destruct (JSMap.has k m); simpl; rewrite !decide_False by done;
      simpl; by rewrite ?decide_False by done.
Qed.

(** Its keys are those of the map with [k] added as to a [Set]. *)
Lemma ensure_mutate_keys k v0 (f : V → V) m :
  (JSMap.mutate k f (if JSMap.has k m then m else JSMap.set k v0 m)).*1
  = JSSet.add k m.*1.
Proof.
  induction m as [| [k' v] m IH].
  - by rewrite ensure_mutate_nil.
  - rewrite ensure_mutate_cons. unfold JSSet.add in *.
    destruct (decide (k = k')) as [-> | Hne]; rewrite !fmap_cons; cbn [fst].
    + rewrite decide_True; [done | by left].
    + rewrite IH. destruct (decide (k ∈ m.*1)) as [Hin | Hin].
      * rewrite decide_True; [done | by right].
      * rewrite decide_False; [done |].
        by intros [? | ?]%elem_of_cons.
Qed.
End JSMapFacts.

(** ** ArchiveGrouper *)

Section Grouping.
Import ArchiveInfoReader.

Lemma classify_container (file : FileWithPath.t)
    (archives : list Archive.t) (others : list FileWithPath.t) :
  Spec.isContainer file = true →
  classify (archives, others) file
  = (archives ++ [Spec.containerArchive file], others).
Proof.
  unfold classify, Spec.containerArchive, Spec.isContainer, Spec.isZip, Spec.isRar.
  destruct (JS.endsWith (FileWithPath.name file) ".zip"); [done |].
  simpl. by intros ->.
Qed.

Lemma classify_other (file : FileWithPath.t)
    (archives : list Archive.t) (others : list FileWithPath.t) :
  Spec.isContainer file = false →
  classify (archives, others) file = (archives, others ++ [file]).
Proof.
  unfold classify, Spec.isContainer, Spec.isZip, Spec.isRar.
  by intros [-> ->]%orb_false_iff.
Qed.

Lemma classify_fold (files : list FileWithPath.t)
    (archives : list Archive.t) (others : list FileWithPath.t) :
  foldl classify (archives, others) files
  = (archives ++ (Spec.containerArchive <$> filter (λ f, Spec.isContainer f) files),
     others ++ filter (λ f, ¬ Spec.isContainer f) files).
Proof.
  revert archives others.
  induction files as [| file files IH]; intros archives others.
  { by rewrite !app_nil_r. }
  cbn [foldl]. destruct (Spec.isContainer file) eqn:Hc.
  - rewrite classify_container, IH by done.
    rewrite filter_cons_True, filter_cons_False by (rewrite Hc; simpl; tauto).
    by rewrite fmap_cons, <-app_assoc.
  - rewrite classify_other, IH by done.
    rewrite filter_cons_False, filter_cons_True by (rewrite Hc; simpl; tauto).
    by rewrite <-app_assoc.
Qed.

Lemma groupStep_topFolder (folders : list (string * list FileWithPath.t))
    (file : FileWithPath.t) :
  groupStep folders file
  = match Spec.topFolder file with
    | Some folder =>
        JSMap.mutate folder (λ fs, fs ++ [file])
          (if JSMap.has folder folders then folders
           else JSMap.set folder [] folders)
    | None => folders
    end.
Proof.
  unfold groupStep, Spec.topFolder, Spec.hasRootedPath.
  destruct (FileWithPath.path file) as [p |]; [| done].
  destruct (JS.startsWith p "/") eqn:Hp; [| by rewrite orb_true_r].
  destruct (startsWith_slash_inv _ Hp) as [rest ->]. simpl.
  by destruct (_ !! _).
Qed.

Lemma topFolder_is_Some (file : FileWithPath.t) :
  Spec.hasRootedPath file = true ↔ is_Some (Spec.topFolder file).
Proof.
  unfold Spec.topFolder. destruct (Spec.hasRootedPath file) eqn:Hroot.
  - split; [intros _ | done]. unfold Spec.hasRootedPath in Hroot.
    destruct (FileWithPath.path file) as [p |]; [| done]. simpl.
    destruct (split_startsWith_slash _ Hroot) as (folder & rest & ->). eauto.
  - split; [done | by intros [? ?]].
Qed.

Lemma groupStep_keys (files : list FileWithPath.t)
    (folders : list (string * list FileWithPath.t)) :
  (foldl groupStep folders files).*1
  = foldl (λ names name, JSSet.add name names) folders.*1
          (omap Spec.topFolder files).
Proof.
  revert folders. induction files as [| file files IH]; intros folders; [done |].
  cbn [foldl]. rewrite IH, groupStep_topFolder. cbn [omap list_omap].
  destruct (Spec.topFolder file) as [name |]; [| done].
  cbn [foldl]. by rewrite ensure_mutate_keys.
Qed.

Lemma push_members (name : string) (file : FileWithPath.t)
    (folders : list (string * list FileWithPath.t)) :
  mjoin (JSMap.mutate name (λ fs, fs ++ [file])
           (if JSMap.has name folders then folders
            else JSMap.set name [] folders)).*2
  ≡ₚ mjoin folders.*2 ++ [file].
Proof.
  induction folders as [| [name' fs] folders IH].
  - by rewrite ensure_mutate_nil.
  - rewrite ensure_mutate_cons.
    destruct (decide (name = name')) as [-> | Hne];
      rewrite !fmap_cons; cbn [snd mjoin list_join].
    + rewrite <-!app_assoc. apply Permutation_app_head, Permutation_app_comm.
    + rewrite IH. by rewrite app_assoc.
Qed.

Lemma groupStep_members (files : list FileWithPath.t)
    (folders : list (string * list FileWithPath.t)) :
  mjoin (foldl groupStep folders files).*2
  ≡ₚ mjoin folders.*2 ++ filter (λ f, Spec.hasRootedPath f) files.
Proof.
  revert folders. induction files as [| file files IH]; intros folders.
  { by rewrite app_nil_r. }
  cbn [foldl]. rewrite IH, groupStep_topFolder, filter_cons.
  pose proof (topFolder_is_Some file) as Htop.
  destruct (Spec.topFolder file) as [name |].
  - rewrite decide_True by (apply Is_true_true, Htop; eauto).
    rewrite push_members. by rewrite <-app_assoc.
  - rewrite decide_False; [done |].
    intros Hroot%Is_true_true. apply Htop in Hroot. by destruct Hroot.
Qed.

Lemma emitFolder_fold (folders : list (string * list FileWithPath.t))
    (archives : list Archive.t) :
  foldl emitFolder archives folders = archives ++ (folderArchive <$> folders).
Proof.
  revert archives. induction folders as [| entry folders IH]; intros archives.
  - by rewrite app_nil_r.
  - cbn [foldl]. rewrite IH. unfold emitFolder. by rewrite <-app_assoc.
Qed.

(** [preprocess], loop by loop. *)
Lemma preprocess_eq (files : list FileWithPath.t) :
  preprocess files
  = (Spec.containerArchive <$> filter (λ f, Spec.isContainer f) files)
    ++ (folderArchive
          <$> foldl groupStep [] (filter (λ f, ¬ Spec.isContainer f) files)).
Proof.
  unfold preprocess. rewrite classify_fold. simpl. apply emitFolder_fold.
Qed.

Lemma allMembers_containers (files : list FileWithPath.t) :
  Spec.allMembers (Spec.containerArchive <$> files) = files.
Proof.
  unfold Spec.allMembers. induction files as [| file files IH]; [done |].
  rewrite fmap_cons, bind_cons, IH. done.
Qed.

Lemma allMembers_folders (folders : list (string * list FileWithPath.t)) :
  Spec.allMembers (folderArchive <$> folders) = mjoin folders.*2.
Proof.
  unfold Spec.allMembers. induction folders as [| [name fs] folders IH]; [done |].
  rewrite !fmap_cons, bind_cons, IH. done.
Qed.

(** Settles a side condition on a flag whose value is among the
    hypotheses. *)
Local Ltac flag H := rewrite H; simpl; tauto.

Lemma filter_groupable (files : list FileWithPath.t) :
  filter (λ f, Spec.isContainer f) files
    ++ filter (λ f, Spec.hasRootedPath f) (filter (λ f, ¬ Spec.isContainer f) files)
  ≡ₚ filter (λ f, Spec.groupable f) files.
Proof.
  induction files as [| file files IH]; [done |].
  assert (Spec.groupable file
          = Spec.isContainer file || Spec.hasRootedPath file) as Hg by done.
  destruct (Spec.isContainer file) eqn:Hc; simpl in Hg.
  - rewrite (filter_cons_True (λ f, Spec.groupable f)) by flag Hg.
    rewrite (filter_cons_True (λ f, Spec.isContainer f)) by flag Hc.
    rewrite (filter_cons_False (λ f, ¬ Spec.isContainer f)) by flag Hc.
    simpl. by rewrite IH.
  - rewrite (filter_cons_False (λ f, Spec.isContainer f)) by flag Hc.
    rewrite (filter_cons_True (λ f, ¬ Spec.isContainer f)) by flag Hc.
    destruct (Spec.hasRootedPath file) eqn:Hr.
    + rewrite (filter_cons_True (λ f, Spec.groupable f)) by flag Hg.
      rewrite (filter_cons_True (λ f, Spec.hasRootedPath f)) by flag Hr.
      rewrite <-IH. by rewrite Permutation_middle.
    + rewrite (filter_cons_False (λ f, Spec.groupable f)) by flag Hg.
      by rewrite (filter_cons_False (λ f, Spec.hasRootedPath f)) by flag Hr.
Qed.

Lemma allMembers_app (archives archives' : list Archive.t) :
  Spec.allMembers (archives ++ archives')
  = Spec.allMembers archives ++ Spec.allMembers archives'.
Proof. apply bind_app. Qed.

Lemma preprocess_members (files : list FileWithPath.t) :
  Spec.allMembers (preprocess files) ≡ₚ filter (λ f, Spec.groupable f) files.
Proof.
  rewrite preprocess_eq, allMembers_app, allMembers_containers,
    allMembers_folders, groupStep_members.
  apply filter_groupable.
Qed.

Lemma NoDup_bind_lookup {A B} (g : A → list B) (l : list A)
    (i j : nat) (a b : A) (x : B) :
  NoDup (l ≫= g) → l !! i = Some a → l !! j = Some b →
  x ∈ g a → x ∈ g b → i = j.
Proof.
  revert i j. induction l as [| a0 l IH]; intros i j Hnd Hi Hj Ha Hb; [done |].
  rewrite bind_cons in Hnd. apply NoDup_app in Hnd as (_ & Hdisj & Hnd).
  destruct i as [| i], j as [| j]; simpl in *; simplify_eq; [done | | |].
  - exfalso. apply (Hdisj x Ha), list_elem_of_bind.
    exists b. split; [done |]. by eapply list_elem_of_lookup_2.
  - exfalso. apply (Hdisj x Hb), list_elem_of_bind.
    exists a. split; [done |]. by eapply list_elem_of_lookup_2.
  - f_equal. by eapply IH.
Qed.

(** C3: grouping is a partition.  The members of the returned archives,
    taken together, are the entries whose name ends in .zip or .rar or
    whose path starts with the separator, each as often as the batch
    holds it; an entry of any other kind is in no archive; and when the
    entries of the batch are pairwise distinct, no entry occurs twice
    among the members and each kept entry is a member of exactly one
    archive. *)
Theorem preprocess_partition (files : list FileWithPath.t) :
  Spec.allMembers (preprocess files) ≡ₚ filter (λ f, Spec.groupable f) files
  ∧ (∀ f a, Spec.groupable f = false →
            a ∈ preprocess files → f ∉ Spec.members a)
  ∧ (NoDup files → NoDup (Spec.allMembers (preprocess files)))
  ∧ (NoDup files →
     ∀ f, f ∈ files → Spec.groupable f = true →
       ∃ i a, preprocess files !! i = Some a
              ∧ f ∈ Spec.members a
              ∧ ∀ j b, preprocess files !! j = Some b →
                       f ∈ Spec.members b → j = i).
Proof.
  pose proof (preprocess_members files) as Hperm.
  assert (NoDup files → NoDup (Spec.allMembers (preprocess files))) as Hnd.
  { intros Hfiles. rewrite Hperm. by apply NoDup_filter. }
  split_and!; [done | | done |].
  - intros f a Hf Ha Hin.
    assert (f ∈ Spec.allMembers (preprocess files)) as Hall.
    { apply list_elem_of_bind. eauto. }
    rewrite Hperm in Hall. apply list_elem_of_filter in Hall as [Hg _].
    rewrite Hf in Hg. done.
  - intros Hfiles f Hin Hg.
    assert (f ∈ Spec.allMembers (preprocess files)) as Hall.
    { rewrite Hperm. apply list_elem_of_filter. split; [by rewrite Hg | done]. }
    apply list_elem_of_bind in Hall as (a & Hfa & Ha).
    apply list_elem_of_lookup_1 in Ha as [i Hi].
    exists i, a. split_and!; [done | done |].
    intros j b Hj Hfb.
    exact (NoDup_bind_lookup Spec.members _ j i b a f (Hnd Hfiles) Hj Hi Hfb Hfa).
Qed.

Lemma preprocess_partition_witness :
  NoDup Spec.mixedBatch
  ∧ NoDup (Spec.allMembers (preprocess Spec.mixedBatch)).
Proof.
  assert (NoDup Spec.mixedBatch) as Hbatch
    by (apply (bool_decide_unpack _); by vm_compute).
  split; [done |].
  exact (proj1 (proj2 (proj2 (preprocess_partition Spec.mixedBatch))) Hbatch).
Defined.

Lemma filter_all {A} (P : A → Prop) `{!∀ x, Decision (P x)} (l : list A) :
  (∀ x, P x) → filter P l = l.
Proof.
  intros HP. induction l as [| x l IH]; [done |].
  by rewrite filter_cons_True, IH.
Qed.

(** First-seen order and [Set] insertion. *)
Lemma firstSeen_filter (P : string → Prop) `{!∀ x, Decision (P x)}
    (l : list string) :
  Spec.firstSeen (filter P l) = filter P (Spec.firstSeen l).
Proof.
  induction l as [| x l IH]; [done |].
  cbn [Spec.firstSeen]. rewrite !filter_cons. case_decide as HP.
  - cbn [Spec.firstSeen]. rewrite IH. f_equal.
    rewrite !list_filter_filter. apply list_filter_iff. tauto.
  - rewrite IH, list_filter_filter. apply list_filter_iff.
    intros y. split; [| tauto]. intros Hy. split; [done | by intros ->].
Qed.

Lemma add_fold_firstSeen (l names : list string) :
  foldl (λ names name, JSSet.add name names) names l
  = names ++ Spec.firstSeen (filter (λ x, x ∉ names) l).
Proof.
  revert names. induction l as [| x l IH]; intros names.
  { by rewrite app_nil_r. }
  cbn [foldl]. rewrite IH, filter_cons. unfold JSSet.add.
  destruct (decide (x ∈ names)) as [Hin | Hin].
  - by rewrite decide_False by tauto.
  - rewrite decide_True by done. cbn [Spec.firstSeen].
    rewrite <-app_assoc. simpl. do 2 f_equal.
    rewrite <-firstSeen_filter, list_filter_filter.
    f_equal. apply list_filter_iff. intros y.
    rewrite elem_of_app, list_elem_of_singleton. tauto.
Qed.

(** C9: the archives returned by grouping are the zip and rar archives,
    in the order of their files in the batch, followed by the folder
    archives, in the order in which their top-level folder is first
    seen among the remaining files, however the two kinds were
    interleaved in the batch. *)
Theorem preprocess_containers_before_folders (files : list FileWithPath.t) :
  ∃ containers folders : list Archive.t,
    preprocess files = containers ++ folders
    ∧ containers
      = Spec.containerArchive <$> filter (λ f, Spec.isContainer f) files
    ∧ Forall (λ a, Archive.type a ≠ ArchiveType.folder) containers
    ∧ Forall (λ a, Archive.type a = ArchiveType.folder) folders
    ∧ Archive.name <$> folders
      = Spec.firstSeen
          (omap Spec.topFolder (filter (λ f, ¬ Spec.isContainer f) files)).
Proof.
  eexists _, _. split; [apply preprocess_eq |]. split; [done |]. split_and!.
  - apply Forall_fmap, Forall_forall. intros f _. simpl. by case_match.
  - apply Forall_fmap, Forall_forall. by intros [name fs] _.
  - rewrite <-list_fmap_compose.
    transitivity ((foldl groupStep []
                     (filter (λ f, ¬ Spec.isContainer f) files)).*1).
    { apply list_fmap_ext. by intros _ [name fs] _. }
    rewrite groupStep_keys, add_fold_firstSeen. simpl. f_equal.
    apply filter_all. intros x. apply not_elem_of_nil.
Qed.

End Grouping.

(** ** Folder trees *)

Section FolderTree.
Import ArchiveInfoReader.
Implicit Types (folderTree : list (nat * list string)) (paths : list string).

Lemma treePairs_cons (depth : nat) (names : list string) folderTree :
  Spec.treePairs ((depth, names) :: folderTree)
  = (pair depth <$> names) ++ Spec.treePairs folderTree.
Proof. reflexivity. Qed.

Lemma elem_of_treePairs_cons (x : nat * string) (depth : nat)
    (names : list string) folderTree :
  x ∈ Spec.treePairs ((depth, names) :: folderTree)
  ↔ (∃ name, x = (depth, name) ∧ name ∈ names) ∨ x ∈ Spec.treePairs folderTree.
Proof. by rewrite treePairs_cons, elem_of_app, list_elem_of_fmap. Qed.

Lemma treePairs_key (depth : nat) (name : string) folderTree :
  (depth, name) ∈ Spec.treePairs folderTree → depth ∈ folderTree.*1.
Proof.
  intros ([d names] & Hin & Hentry)%list_elem_of_bind.
  apply list_elem_of_fmap in Hin as (name' & [= -> ->] & _).
  apply list_elem_of_fmap. by exists (d, names).
Qed.

(** Registering a name under a depth adds that pair and no other. *)
Lemma elem_of_register (x : nat * string) (depth : nat) (name : string)
    folderTree :
  x ∈ Spec.treePairs
        (JSMap.mutate depth (JSSet.add name)
           (if JSMap.has depth folderTree then folderTree
            else JSMap.set depth [] folderTree))
  ↔ x = (depth, name) ∨ x ∈ Spec.treePairs folderTree.
Proof.
  induction folderTree as [| [depth' names] folderTree IH].
  - rewrite ensure_mutate_nil, elem_of_treePairs_cons.
    unfold JSSet.add. rewrite decide_False by apply not_elem_of_nil. simpl.
    split.
    + intros [(name' & -> & ->%list_elem_of_singleton) | []%not_elem_of_nil].
      by left.
    + intros [-> | []%not_elem_of_nil]. left. exists name.
      split; [done | by apply list_elem_of_singleton].
  - rewrite ensure_mutate_cons.
    destruct (decide (depth = depth')) as [<- | Hne];
      rewrite !elem_of_treePairs_cons.
    + split.
      * intros [(name' & -> & [-> | Hin]%elem_of_add) | Hin];
          [by left | right; left; eauto | by right; right].
      * intros [-> | [(name' & -> & Hin) | Hin]]; [| | by right];
          left; eexists; (split; [done |]); apply elem_of_add; auto.
    + rewrite IH. tauto.
Qed.

Lemma wellFormed_register (depth : nat) (name : string) folderTree :
  Spec.wellFormedTree folderTree →
  Spec.wellFormedTree
    (JSMap.mutate depth (JSSet.add name)
       (if JSMap.has depth folderTree then folderTree
        else JSMap.set depth [] folderTree)).
Proof.
  intros [Hkeys Hnames]. split.
  - rewrite ensure_mutate_keys. by apply NoDup_add.
  - clear Hkeys. induction folderTree as [| [depth' names] folderTree IH].
    + rewrite ensure_mutate_nil. constructor; [| constructor].
      apply NoDup_add, NoDup_nil_2.
    + rewrite ensure_mutate_cons. apply Forall_cons in Hnames as [Hn Hrest].
      case_decide; constructor; simpl; auto using NoDup_add.
Qed.

(** Making sure a depth has a [Set] adds no pair. *)
Lemma elem_of_ensure (x : nat * string) (depth : nat) folderTree :
  x ∈ Spec.treePairs (if JSMap.has depth folderTree then folderTree
                      else JSMap.set depth [] folderTree)
  ↔ x ∈ Spec.treePairs folderTree.
Proof.
  destruct (JSMap.has depth folderTree) eqn:Hhas; [done |].
  rewrite set_fresh by done. unfold Spec.treePairs.
  by rewrite bind_app, bind_singleton, app_nil_r.
Qed.

Lemma wellFormed_ensure (depth : nat) folderTree :
  Spec.wellFormedTree folderTree →
  Spec.wellFormedTree (if JSMap.has depth folderTree then folderTree
                       else JSMap.set depth [] folderTree).
Proof.
  intros [Hkeys Hnames].
  destruct (JSMap.has depth folderTree) eqn:Hhas; [done |].
  rewrite set_fresh by done. split.
  - rewrite fmap_app. apply NoDup_app. split_and!; [done | | apply NoDup_singleton].
    intros depth' Hin ->%list_elem_of_singleton.
    by apply has_false_keys in Hhas.
  - apply Forall_app. split; [done |]. repeat constructor.
Qed.

Lemma wellFormed_NoDup folderTree :
  Spec.wellFormedTree folderTree → NoDup (Spec.treePairs folderTree).
Proof.
  intros [Hkeys Hnames].
  induction folderTree as [| [depth names] folderTree IH]; [apply NoDup_nil_2 |].
  rewrite fmap_cons in Hkeys. apply NoDup_cons in Hkeys as [Hfresh Hkeys].
  apply Forall_cons in Hnames as [Hn Hnames].
  rewrite treePairs_cons. apply NoDup_app. split_and!.
  - apply (NoDup_fmap_2 _). exact Hn.
  - intros x (name & -> & _)%list_elem_of_fmap Hin.
    by apply treePairs_key in Hin.
  - by apply IH.
Qed.

Lemma countFolders_from (folderTree : list (nat * list string)) (n : nat) :
  foldl (λ folderCount folders, (folderCount + JSSet.size folders)%nat)
        n (JSMap.values folderTree)
  = (n + length (Spec.treePairs folderTree))%nat.
Proof.
  revert n. induction folderTree as [| [depth names] folderTree IH]; intros n.
  - simpl. lia.
  - unfold JSMap.values in *. rewrite fmap_cons. cbn [foldl snd].
    rewrite IH, treePairs_cons, length_app, length_fmap.
    unfold JSSet.size. lia.
Qed.

(** [folderCount] is the number of pairs the tree records. *)
Lemma countFolders_treePairs folderTree :
  countFolders folderTree = length (Spec.treePairs folderTree).
Proof. apply countFolders_from. Qed.

Lemma elem_of_registerDepth (x : nat * string) paths folderTree (depth : nat) :
  x ∈ Spec.treePairs (registerDepth paths folderTree depth)
  ↔ (∃ name, paths !! depth = Some name ∧ x = (depth, name))
    ∨ x ∈ Spec.treePairs folderTree.
Proof.
  unfold registerDepth. destruct (paths !! depth) as [name |].
  - rewrite elem_of_register. split.
    + intros [-> | ?]; [left; eauto | by right].
    + intros [(? & [= <-] & ->) | ?]; [by left | by right].
  - rewrite elem_of_ensure. split; [by right |].
    by intros [(? & [=] & _) | ?].
Qed.

Lemma wellFormed_registerDepth paths folderTree (depth : nat) :
  Spec.wellFormedTree folderTree →
  Spec.wellFormedTree (registerDepth paths folderTree depth).
Proof.
  intros Hwf. unfold registerDepth. destruct (paths !! depth).
  - by apply wellFormed_register.
  - by apply wellFormed_ensure.
Qed.

Lemma elem_of_registerDepths (x : nat * string) paths (depths : list nat)
    folderTree :
  x ∈ Spec.treePairs (foldl (registerDepth paths) folderTree depths)
  ↔ (∃ depth name, depth ∈ depths ∧ paths !! depth = Some name
                   ∧ x = (depth, name))
    ∨ x ∈ Spec.treePairs folderTree.
Proof.
  revert folderTree. induction depths as [| depth depths IH]; intros folderTree.
  - simpl. split; [by right |].
    by intros [(? & ? & []%not_elem_of_nil & _) | ?].
  - cbn [foldl]. rewrite IH, elem_of_registerDepth. split.
    + intros [(d & name & Hd & Hname & ->) | [(name & Hname & ->) | Hin]].
      * left. exists d, name. split_and!; [by right | done | done].
      * left. exists depth, name. split_and!; [by left | done | done].
      * by right.
    + intros [(d & name & [-> | Hd]%elem_of_cons & Hname & ->) | Hin].
      * right. left. eauto.
      * left. eauto.
      * right. by right.
Qed.

Lemma wellFormed_registerDepths paths (depths : list nat) folderTree :
  Spec.wellFormedTree folderTree →
  Spec.wellFormedTree (foldl (registerDepth paths) folderTree depths).
Proof.
  revert folderTree. induction depths as [| depth depths IH]; intros folderTree Hwf;
    [done |].
  cbn [foldl]. by apply IH, wellFormed_registerDepth.
Qed.

(** Every [paths[depth]] the loop reads exists. *)
Lemma registerFolders_in_range paths (depth : nat) :
  depth ∈ seq 2 (length paths - 1 - 2) → is_Some (paths !! depth).
Proof.
  intros Hin%elem_of_seq. apply lookup_lt_is_Some. lia.
Qed.

Lemma elem_of_intermediateSegments (x : nat * string) (path : string) :
  x ∈ Spec.intermediateSegments path
  ↔ ∃ depth name,
      (2 ≤ depth < length (JS.split "/" path) - 1)%nat
      ∧ JS.split "/" path !! depth = Some name
      ∧ x = (depth, name).
Proof.
  unfold Spec.intermediateSegments.
  set (segments := JS.split "/" path).
  case_decide as Hlen.
  - rewrite list_elem_of_lookup. setoid_rewrite lookup_drop. split.
    + intros (i & Hi).
      apply lookup_take_Some in Hi as [Hi Hlt].
      rewrite list_lookup_imap in Hi.
      destruct (segments !! (2 + i)%nat) as [name |] eqn:Hname; [| done].
      injection Hi as <-. exists (2 + i)%nat, name. split_and!; [lia | lia | done | done].
    + intros (depth & name & [Hge Hlt] & Hname & ->).
      exists (depth - 2)%nat. replace (2 + (depth - 2))%nat with depth by lia.
      apply lookup_take_Some. split; [| lia].
      by rewrite list_lookup_imap, Hname.
  - split; [by intros []%not_elem_of_nil |].
    intros (depth & name & [Hge Hlt] & Hname & ->). lia.
Qed.

Lemma elem_of_registerFolders (x : nat * string) (path : string) folderTree :
  x ∈ Spec.treePairs (registerFolders (JS.split "/" path) folderTree)
  ↔ x ∈ Spec.intermediateSegments path ∨ x ∈ Spec.treePairs folderTree.
Proof.
  rewrite elem_of_intermediateSegments. unfold registerFolders.
  set (paths := JS.split "/" path).
  case_decide as Hlen.
  - rewrite elem_of_registerDepths. setoid_rewrite elem_of_seq.
    split; (intros [(depth & name & Hd & Hname & ->) | Hin]; [left | by right]);
      exists depth, name; (split_and!; [lia .. | done | done]).
  - split; [by right |].
    intros [(depth & name & [Hge Hlt] & _) | Hin]; [lia | done].
Qed.

Lemma wellFormed_registerFolders paths folderTree :
  Spec.wellFormedTree folderTree →
  Spec.wellFormedTree (registerFolders paths folderTree).
Proof.
  intros Hwf. unfold registerFolders. case_decide; [| done].
  by apply wellFormed_registerDepths.
Qed.

(** The loop of [readFolder] completes on members that all carry a
    path, and its tree then records the intermediate segments of their
    paths, each pair once. *)
Lemma readFolderLoop_pairs (files : list FileWithPath.t)
    (extensions : list string) folderTree :
  Forall (λ f, is_Some (FileWithPath.path f)) files →
  Spec.wellFormedTree folderTree →
  ∃ extensions' folderTree',
    readFolderLoop files extensions folderTree
      = Fulfilled (extensions', folderTree')
    ∧ Spec.wellFormedTree folderTree'
    ∧ ∀ x, x ∈ Spec.treePairs folderTree'
           ↔ x ∈ Spec.depthNamePairs files ∨ x ∈ Spec.treePairs folderTree.
Proof.
  intros Hpaths. revert extensions folderTree.
  induction Hpaths as [| file files [p Hp] _ IH]; intros extensions folderTree Hwf.
  - exists extensions, folderTree. split_and!; [done | done |].
    intros x. split; [by right | by intros [[]%not_elem_of_nil | ?]].
  - cbn [readFolderLoop]. rewrite Hp. cbn [nonNull mbind promise_bind].
    destruct (IH (addExtension (FileWithPath.name file) extensions)
                 (registerFolders (JS.split "/" p) folderTree))
      as (extensions' & folderTree' & Hloop & Hwf' & Hpairs).
    { by apply wellFormed_registerFolders. }
    exists extensions', folderTree'. split_and!; [done | done |].
    intros x. rewrite Hpairs, elem_of_registerFolders.
    unfold Spec.depthNamePairs. rewrite bind_cons, elem_of_app, Hp. tauto.
Qed.

(** C2: for a folder archive whose members all carry a path, extraction
    succeeds and [folderCount] is the number of distinct (depth, name)
    pairs among the intermediate segments of the members' paths: the
    segments at index 2 and above, the final one excluded, of the paths of
    more than 3 segments. *)
Theorem readFolder_folderCount zipPaths rarFileHeaders
    (archive : Archive.t) (files : list FileWithPath.t) :
  Archive.type archive = ArchiveType.folder →
  Archive.files archive = Some files →
  Forall (λ f, is_Some (FileWithPath.path f)) files →
  ∃ info,
    readArchiveInfo zipPaths rarFileHeaders archive = Fulfilled info
    ∧ ArchiveInfo.folderCount info = Spec.distinctDepthNamePairs files.
Proof.
  intros Htype Hfiles Hpaths.
  unfold readArchiveInfo, readFolder. rewrite Htype, Hfiles.
  cbn [nonNull mbind promise_bind].
  destruct (readFolderLoop_pairs files [] [] Hpaths)
    as (extensions & folderTree & -> & Hwf & Hpairs).
  { split; [apply NoDup_nil_2 | constructor]. }
  eexists. split; [done |]. cbn [ArchiveInfo.folderCount snd].
  rewrite countFolders_treePairs. unfold Spec.distinctDepthNamePairs.
  rewrite <-(size_list_to_set (C := gset (nat * string)))
    by by apply wellFormed_NoDup.
  f_equal. apply set_eq. intros x. rewrite !elem_of_list_to_set, Hpairs.
  split; [by intros [? | []%not_elem_of_nil] | by left].
Qed.

Lemma readFolder_folderCount_witness :
  Archive.type (Archive.mk "a" 6 ArchiveType.folder (Some Spec.nestedMembers))
  = ArchiveType.folder
  ∧ Forall (λ f, is_Some (FileWithPath.path f)) Spec.nestedMembers
  ∧ Spec.distinctDepthNamePairs Spec.nestedMembers = 2%nat
  ∧ ∃ info,
      readArchiveInfo (λ _, Rejected DecodeError) (λ _, Rejected DecodeError)
        (Archive.mk "a" 6 ArchiveType.folder (Some Spec.nestedMembers))
      = Fulfilled info
      ∧ ArchiveInfo.folderCount info
        = Spec.distinctDepthNamePairs Spec.nestedMembers.
Proof.
  assert (Forall (λ f, is_Some (FileWithPath.path f)) Spec.nestedMembers)
    as Hpaths by (repeat constructor; by eexists).
  split; [done |]. split; [done |]. split; [by vm_compute |].
  by apply (readFolder_folderCount _ _
              (Archive.mk "a" 6 ArchiveType.folder (Some Spec.nestedMembers))
              Spec.nestedMembers).
Defined.

(** The same sub-folder name at two depths counts twice; the same name
    reached through several files at one depth counts once. *)
Example folderCount_by_depth :
  readFolder
    (Archive.mk "a" 3 ArchiveType.folder
       (Some [ FileWithPath.mk "f.txt" 1 (Some "/a/x/x/f.txt") ]))
  = Fulfilled (ArchiveInfo.mk "a" 3 ["txt"] 1 2)
  ∧ readFolder
      (Archive.mk "a" 3 ArchiveType.folder
         (Some [ FileWithPath.mk "f.txt" 1 (Some "/a/sub/f.txt");
                 FileWithPath.mk "g.txt" 2 (Some "/a/sub/g.txt") ]))
    = Fulfilled (ArchiveInfo.mk "a" 3 ["txt"] 2 1).
Proof. by vm_compute. Qed.

End FolderTree.

(** ** The pipeline from grouping to extraction *)

Section Pipeline.
Import ArchiveInfoReader.

(** The folder archives grouping returns have a files array whose
    members all carry a path: extraction applies to them. *)
Lemma preprocess_folders_readable (files : list FileWithPath.t) (a : Archive.t) :
  a ∈ preprocess files → Archive.type a = ArchiveType.folder →
  ∃ members, Archive.files a = Some members
             ∧ Forall (λ f, is_Some (FileWithPath.path f)) members.
Proof.
  rewrite preprocess_eq, elem_of_app, !list_elem_of_fmap.
  intros [(f & -> & _) | ([name members] & -> & Hentry)] Htype.
  { simpl in Htype. by case_match. }
  exists members. split; [done |]. apply Forall_forall. intros f Hf.
  assert (f ∈ mjoin (foldl groupStep []
                       (filter (λ f, ¬ Spec.isContainer f) files)).*2) as Hin.
  { apply list_elem_of_join. exists members. split; [done |].
    apply list_elem_of_fmap. by exists (name, members). }
  rewrite groupStep_members in Hin. simpl in Hin.
  apply list_elem_of_filter in Hin as [Hroot _].
  unfold Spec.hasRootedPath in Hroot.
  by destruct (FileWithPath.path f).
Qed.

(** C4: the batch x.txt (10 bytes, /a/x.txt), y.txt (20 bytes,
    /a/y.txt), z.txt (5 bytes, /a/sub/z.txt) groups into exactly one
    archive, of type folder, named a, of size 35, and extraction on it
    gives fileCount 3, folderCount 1 and the extensions txt. *)
Theorem grouping_example (relativeNames : bool) zipPaths rarFileHeaders :
  ∃ archive,
    preprocess (Spec.exampleBatch relativeNames) = [archive]
    ∧ Archive.type archive = ArchiveType.folder
    ∧ Archive.name archive = "a"
    ∧ Archive.size archive = 35
    ∧ readArchiveInfo zipPaths rarFileHeaders archive
      = Fulfilled (ArchiveInfo.mk "a" 35 ["txt"] 3 1).
Proof.
  destruct relativeNames; eexists; (split; [by vm_compute |]);
    by vm_compute.
Qed.

End Pipeline.

(** ** Numbers *)

Section Numbers.

(** Up to 2^53 every integer is a double. *)
Lemma toDouble_exact (z : Z) : Z.abs z ≤ 2 ^ 53 → JS.toDouble z = z.
Proof.
  intros Hz. unfold JS.toDouble. cbv zeta.
  by rewrite (proj2 (Z.leb_le _ _) Hz).
Qed.

(** Adding numbers that are not negative is exact as long as the sum is
    at most 2^53. *)
Lemma add_exact (a b : Z) :
  0 ≤ a → 0 ≤ b → a + b ≤ 2 ^ 53 → JS.add a b = a + b.
Proof. intros Ha Hb Hsum. apply toDouble_exact. lia. Qed.



Lemma sumFileSizes_nonneg (files : list FileWithPath.t) :
  Forall (λ f, 0 ≤ FileWithPath.size f) files → 0 ≤ Spec.sumFileSizes files.
Proof. unfold Spec.sumFileSizes. induction 1; simpl; lia. Qed.

End Numbers.

(** ** ReportRenderer *)

Section Rendering.
Import MoelistFormatter.
Variable toLocaleString : Z → string.



Lemma previewStep_fold (infos : list ArchiveInfo.t) (lines : list string)
    (t : totals) :
  foldl (previewStep toLocaleString) (lines, t) infos
  = (lines ++ (previewLine toLocaleString <$> infos), foldl accumulate t infos).
Proof.
  revert lines t. induction infos as [| info infos IH]; intros lines t.
  - by rewrite app_nil_r.
  - cbn [foldl]. unfold previewStep at 2. rewrite IH.
    by rewrite fmap_cons, <-app_assoc.
Qed.

Lemma tableStep_fold (infos : list ArchiveInfo.t) (lines : list string)
    (t : totals) :
  foldl (tableStep toLocaleString) (lines, t) infos
  = (lines ++ (tableLine toLocaleString <$> infos), foldl accumulate t infos).
Proof.
  revert lines t. induction infos as [| info infos IH]; intros lines t.
  - by rewrite app_nil_r.
  - cbn [foldl]. unfold tableStep at 2. rewrite IH.
    by rewrite fmap_cons, <-app_assoc.
Qed.

(** The preview report, line by line, with the totals the loop ends
    with. *)
Lemma getPreviewStyle_lines (info : ArchiveInfo.t) (infos : list ArchiveInfo.t) :
  getPreviewStyle toLocaleString (info :: infos)
  = JS.join LF
      (Spec.previewLines toLocaleString (info :: infos)
         (totalSize (foldl accumulate (mkTotals 0 0 0) (info :: infos)))
         (totalFiles (foldl accumulate (mkTotals 0 0 0) (info :: infos)))
         (totalFolders (foldl accumulate (mkTotals 0 0 0) (info :: infos)))).
Proof.
  unfold getPreviewStyle, Spec.previewLines. rewrite decide_False by done.
  rewrite previewStep_fold.
  by rewrite <-!app_assoc.
Qed.

(** The table report, line by line, with the totals the loop ends with. *)
Lemma getTableStyle_lines (info : ArchiveInfo.t) (infos : list ArchiveInfo.t) :
  getTableStyle toLocaleString (info :: infos)
  = JS.join LF
      (Spec.tableLines toLocaleString (info :: infos)
         (totalSize (foldl accumulate (mkTotals 0 0 0) (info :: infos)))
         (totalFiles (foldl accumulate (mkTotals 0 0 0) (info :: infos)))
         (totalFolders (foldl accumulate (mkTotals 0 0 0) (info :: infos)))).
Proof.
  unfold getTableStyle, Spec.tableLines. rewrite decide_False by done.
  rewrite tableStep_fold.
  by rewrite <-!app_assoc.
Qed.



(** C8: rendering the empty list gives the empty string in each of the
    three formats. *)
Theorem rendering_empty_list :
  getPreviewStyle toLocaleString [] = ""
  ∧ getCodeStyle toLocaleString [] = ""
  ∧ getTableStyle toLocaleString [] = "".
Proof. by split_and!. Qed.

End Rendering.



(** ** Extraction, strategy by strategy *)

Section Extraction.
Import ArchiveInfoReader.

Lemma last_split_is_Some (sep : ascii) (s : string) :
  is_Some (last (JS.split sep s)).
Proof.
  pose proof (split_nonempty sep s) as Hne.
  destruct (JS.split sep s) as [| seg segs] using rev_ind; [done |].
  rewrite last_snoc. eauto.
Qed.

Lemma elem_of_addExtension (ext s : string) (extensions : list string) :
  ext ∈ addExtension s extensions
  ↔ ext ∈ extensions ∨ Spec.recordedAs s ext.
Proof.
  destruct (last_split_is_Some "." s) as [e He].
  rewrite (addExtension_last _ _ e He). unfold Spec.recordedAs. rewrite He.
  case_decide as Hempty.
  - subst e. split; [by left |]. by intros [? | [Hne [= <-]]].
  - rewrite elem_of_add. split.
    + intros [-> | ?]; [by right | by left].
    + intros [? | [_ [= <-]]]; [by right | by left].
Qed.

Lemma NoDup_addExtension (s : string) (extensions : list string) :
  NoDup extensions → NoDup (addExtension s extensions).
Proof.
  intros Hnd. destruct (last_split_is_Some "." s) as [e He].
  rewrite (addExtension_last _ _ e He). case_decide; [done |].
  by apply NoDup_add.
Qed.

(** The extension set after a run of names. *)
Lemma elem_of_addExtensions (ext : string) (names extensions : list string) :
  ext ∈ foldl (λ exts s, addExtension s exts) extensions names
  ↔ ext ∈ extensions ∨ ∃ s, s ∈ names ∧ Spec.recordedAs s ext.
Proof.
  revert extensions. induction names as [| s names IH]; intros extensions.
  - simpl. split; [by left |].
    by intros [? | (? & []%not_elem_of_nil & _)].
  - cbn [foldl]. rewrite IH, elem_of_addExtension. split.
    + intros [[? | Hs] | (s' & Hin & Hs')].
      * by left.
      * right. exists s. split; [by left | done].
      * right. exists s'. split; [by right | done].
    + intros [? | (s' & [-> | Hin]%elem_of_cons & Hs')].
      * by left; left.
      * by left; right.
      * right. eauto.
Qed.

Lemma NoDup_addExtensions (names extensions : list string) :
  NoDup extensions →
  NoDup (foldl (λ exts s, addExtension s exts) extensions names).
Proof.
  revert extensions. induction names as [| s names IH]; intros extensions Hnd;
    [done |].
  cbn [foldl]. by apply IH, NoDup_addExtension.
Qed.

(** The loop of [readZipfile], in closed form. *)
Lemma zipStep_fold (paths : list string) (st : counters) :
  foldl zipStep st paths
  = mkCounters
      (c_fileCount st + length (Spec.zipFiles paths))
      (c_folderCount st + length (Spec.zipFolders paths))
      (foldl (λ exts s, addExtension s exts) (c_extensions st)
             (Spec.zipFiles paths)).
Proof.
  revert st. induction paths as [| path paths IH]; intros [files folders exts].
  - simpl. f_equal; lia.
  - cbn [foldl]. rewrite IH. unfold zipStep, Spec.zipFiles, Spec.zipFolders.
    rewrite !filter_cons.
    destruct (JS.endsWith path "/"); simpl; f_equal; lia.
Qed.

(** The loop of [readRarFile], in closed form. *)
Lemma rarStep_fold (headers : list FileHeader.t) (st : counters) :
  foldl rarStep st headers
  = mkCounters
      (c_fileCount st + length (Spec.rarFiles headers))
      (c_folderCount st + length (Spec.rarFolders headers))
      (foldl (λ exts s, addExtension s exts) (c_extensions st)
             (FileHeader.name <$> Spec.rarFiles headers)).
Proof.
  revert st. induction headers as [| file headers IH]; intros [files folders exts].
  - simpl. f_equal; lia.
  - cbn [foldl]. rewrite IH. unfold rarStep, Spec.rarFiles, Spec.rarFolders.
    rewrite !filter_cons.
    destruct (FileHeader.directory file); simpl; f_equal; lia.
Qed.

Lemma length_filter_split {A} (P : A → Prop) `{!∀ x, Decision (P x)} (l : list A) :
  (length (filter (λ x, ¬ P x) l) + length (filter P l))%nat = length l.
Proof.
  induction l as [| x l IH]; [done |].
  rewrite !filter_cons. destruct (decide (P x)).
  - rewrite decide_False by tauto. simpl. lia.
  - rewrite decide_True by done. simpl. lia.
Qed.

(** No segment of a split holds the separator. *)
Lemma split_segments_no_sep (sep : ascii) (s seg : string) :
  seg ∈ JS.split sep s → Spec.occurs sep seg = false.
Proof.
  revert seg. induction s as [| c s IH]; intros seg; simpl.
  - by intros ->%list_elem_of_singleton.
  - case_decide as Hc.
    + intros [-> | Hin]%elem_of_cons; [done | by apply IH].
    + pose proof (split_nonempty sep s) as Hne.
      destruct (JS.split sep s) as [| seg0 segs]; [done |].
      intros [-> | Hin]%elem_of_cons.
      * simpl. rewrite bool_decide_eq_false_2 by done. apply IH. by left.
      * apply IH. by right.
Qed.

Lemma recordedAs_no_dot (s ext : string) :
  Spec.recordedAs s ext → Spec.occurs "." ext = false.
Proof.
  intros [_ Hlast]. apply (split_segments_no_sep "." s).
  destruct (JS.split "." s) as [| seg segs] using rev_ind; [done |].
  rewrite last_snoc in Hlast. injection Hlast as <-.
  apply elem_of_app. right. by left.
Qed.

Lemma readZipfile_fulfilled zipPaths (archive : Archive.t)
    (files : list FileWithPath.t) (paths : list string) :
  Archive.files archive = Some files →
  zipPaths (files !! 0%nat) = Fulfilled paths →
  readZipfile zipPaths archive
  = Fulfilled (infoOf archive (foldl zipStep counters0 paths)).
Proof. intros Hfiles Hpaths. unfold readZipfile. by rewrite Hfiles; simpl; rewrite Hpaths. Qed.

Lemma readRarFile_fulfilled rarFileHeaders (archive : Archive.t)
    (files : list FileWithPath.t) (headers : list FileHeader.t) :
  Archive.files archive = Some files →
  rarFileHeaders (files !! 0%nat) = Fulfilled headers →
  readRarFile rarFileHeaders archive
  = Fulfilled (infoOf archive (foldl rarStep counters0 headers)).
Proof. intros Hfiles Hhs. unfold readRarFile. by rewrite Hfiles; simpl; rewrite Hhs. Qed.

(** The extensions the loop of [readFolder] ends with. *)
Lemma readFolderLoop_exts (files : list FileWithPath.t)
    (extensions : list string) (folderTree : list (nat * list string)) st :
  readFolderLoop files extensions folderTree = Fulfilled st →
  st.1 = foldl (λ exts s, addExtension s exts) extensions
               (FileWithPath.name <$> files).
Proof.
  revert extensions folderTree.
  induction files as [| file files IH]; intros extensions folderTree; simpl.
  - by intros [= <-].
  - destruct (FileWithPath.path file) as [p |]; simpl; [| done]. apply IH.
Qed.

(** The loop of [readFolder] fails exactly on a member without a path. *)
Lemma readFolderLoop_rejected (files : list FileWithPath.t)
    (extensions : list string) (folderTree : list (nat * list string)) e :
  readFolderLoop files extensions folderTree = Rejected e
  ↔ e = TypeError ∧ ∃ f, f ∈ files ∧ FileWithPath.path f = None.
Proof.
  revert extensions folderTree.
  induction files as [| file files IH]; intros extensions folderTree; simpl.
  - split; [done |]. by intros [_ (? & []%not_elem_of_nil & _)].
  - destruct (FileWithPath.path file) as [p |] eqn:Hp; simpl.
    + rewrite IH. split.
      * intros [-> (f & Hin & Hf)]. split; [done |]. exists f. split; [by right | done].
      * intros [-> (f & [-> | Hin]%elem_of_cons & Hf)]; [congruence |]. eauto.
    + split.
      * intros [= <-]. split; [done |]. exists file. split; [by left | done].
      * by intros [-> _].
Qed.

(** X1: when the zip decoder answers, [readZipfile] is fulfilled:
    [folderCount] is the number of index paths that end in '/',
    [fileCount] the number of the others, so that the two counts add up to
    the size of the index, and name and size are the archive's. *)
Theorem readZipfile_counts zipPaths (archive : Archive.t)
    (files : list FileWithPath.t) (paths : list string) :
  Archive.files archive = Some files →
  zipPaths (files !! 0%nat) = Fulfilled paths →
  ∃ info,
    readZipfile zipPaths archive = Fulfilled info
    ∧ ArchiveInfo.name info = Archive.name archive
    ∧ ArchiveInfo.size info = Archive.size archive
    ∧ ArchiveInfo.folderCount info = length (Spec.zipFolders paths)
    ∧ ArchiveInfo.fileCount info = length (Spec.zipFiles paths)
    ∧ (ArchiveInfo.fileCount info + ArchiveInfo.folderCount info)%nat
      = length paths.
Proof.
  intros Hfiles Hpaths. eexists. split; [by eapply readZipfile_fulfilled |].
  rewrite zipStep_fold. simpl. split_and!; try done.
  apply (length_filter_split (λ p, JS.endsWith p "/")).
Qed.

Lemma readZipfile_counts_witness :
  Archive.files Spec.sampleZip = Some [FileWithPath.mk "docs.zip" 7 None]
  ∧ ∃ info,
      readZipfile (λ _, Fulfilled Spec.sampleIndex) Spec.sampleZip = Fulfilled info
      ∧ ArchiveInfo.name info = "docs.zip"
      ∧ ArchiveInfo.size info = 7
      ∧ ArchiveInfo.folderCount info = 2%nat
      ∧ ArchiveInfo.fileCount info = 3%nat
      ∧ (ArchiveInfo.fileCount info + ArchiveInfo.folderCount info)%nat = 5%nat.
Proof.
  split; [done |].
  exact (readZipfile_counts (λ _, Fulfilled Spec.sampleIndex) Spec.sampleZip
           [FileWithPath.mk "docs.zip" 7 None] Spec.sampleIndex eq_refl eq_refl).
Defined.

(** X2: when the rar decoder answers, [readRarFile] is fulfilled:
    [folderCount] is the number of headers flagged as directories,
    [fileCount] the number of the others, the two counts add up to the
    number of headers, and name and size are the archive's. *)
Theorem readRarFile_counts rarFileHeaders (archive : Archive.t)
    (files : list FileWithPath.t) (headers : list FileHeader.t) :
  Archive.files archive = Some files →
  rarFileHeaders (files !! 0%nat) = Fulfilled headers →
  ∃ info,
    readRarFile rarFileHeaders archive = Fulfilled info
    ∧ ArchiveInfo.name info = Archive.name archive
    ∧ ArchiveInfo.size info = Archive.size archive
    ∧ ArchiveInfo.folderCount info = length (Spec.rarFolders headers)
    ∧ ArchiveInfo.fileCount info = length (Spec.rarFiles headers)
    ∧ (ArchiveInfo.fileCount info + ArchiveInfo.folderCount info)%nat
      = length headers.
Proof.
  intros Hfiles Hhs. eexists. split; [by eapply readRarFile_fulfilled |].
  rewrite rarStep_fold. simpl. split_and!; try done.
  apply (length_filter_split (λ h, FileHeader.directory h)).
Qed.

Lemma readRarFile_counts_witness :
  Archive.files Spec.sampleRar = Some [FileWithPath.mk "docs.rar" 9 None]
  ∧ ∃ info,
      readRarFile (λ _, Fulfilled Spec.sampleHeaders) Spec.sampleRar = Fulfilled info
      ∧ ArchiveInfo.name info = "docs.rar"
      ∧ ArchiveInfo.size info = 9
      ∧ ArchiveInfo.folderCount info = 1%nat
      ∧ ArchiveInfo.fileCount info = 2%nat
      ∧ (ArchiveInfo.fileCount info + ArchiveInfo.folderCount info)%nat = 3%nat.
Proof.
  split; [done |].
  exact (readRarFile_counts (λ _, Fulfilled Spec.sampleHeaders) Spec.sampleRar
           [FileWithPath.mk "docs.rar" 9 None] Spec.sampleHeaders eq_refl eq_refl).
Defined.

(** X3: the extensions [readZipfile] reports are exactly those under
    which some file entry of the index is recorded; folder entries
    contribute none, whatever their name. *)
Theorem readZipfile_exts zipPaths (archive : Archive.t)
    (files : list FileWithPath.t) (paths : list string) :
  Archive.files archive = Some files →
  zipPaths (files !! 0%nat) = Fulfilled paths →
  ∃ info,
    readZipfile zipPaths archive = Fulfilled info
    ∧ ∀ ext, ext ∈ ArchiveInfo.exts info
             ↔ ∃ p, p ∈ paths ∧ JS.endsWith p "/" = false
                    ∧ Spec.recordedAs p ext.
Proof.
  intros Hfiles Hpaths. eexists. split; [by eapply readZipfile_fulfilled |].
  intros ext. rewrite zipStep_fold. simpl. rewrite elem_of_addExtensions.
  unfold Spec.zipFiles. setoid_rewrite list_elem_of_filter. split.
  - intros [[]%not_elem_of_nil | (p & [Hdir Hin] & Hext)].
    exists p. split_and!; [done | by destruct (JS.endsWith p "/") | done].
  - intros (p & Hin & Hdir & Hext). right. exists p.
    split_and!; [rewrite Hdir; simpl; tauto | done | done].
Qed.

Lemma readZipfile_exts_witness :
  Archive.files Spec.sampleZip = Some [FileWithPath.mk "docs.zip" 7 None]
  ∧ readZipfile (λ _, Fulfilled Spec.sampleIndex) Spec.sampleZip
    = Fulfilled (ArchiveInfo.mk "docs.zip" 7 ["txt"] 3 2)
  ∧ ∃ info,
      readZipfile (λ _, Fulfilled Spec.sampleIndex) Spec.sampleZip = Fulfilled info
      ∧ ∀ ext, ext ∈ ArchiveInfo.exts info
               ↔ ∃ p, p ∈ Spec.sampleIndex ∧ JS.endsWith p "/" = false
                      ∧ Spec.recordedAs p ext.
Proof.
  split; [done |]. split; [by vm_compute |].
  exact (readZipfile_exts (λ _, Fulfilled Spec.sampleIndex) Spec.sampleZip
           [FileWithPath.mk "docs.zip" 7 None] Spec.sampleIndex eq_refl eq_refl).
Defined.

(** X4: the extensions [readRarFile] reports are exactly those under
    which the name of some header that is not a directory is recorded. *)
Theorem readRarFile_exts rarFileHeaders (archive : Archive.t)
    (files : list FileWithPath.t) (headers : list FileHeader.t) :
  Archive.files archive = Some files →
  rarFileHeaders (files !! 0%nat) = Fulfilled headers →
  ∃ info,
    readRarFile rarFileHeaders archive = Fulfilled info
    ∧ ∀ ext, ext ∈ ArchiveInfo.exts info
             ↔ ∃ h, h ∈ headers ∧ FileHeader.directory h = false
                    ∧ Spec.recordedAs (FileHeader.name h) ext.
Proof.
  intros Hfiles Hhs. eexists. split; [by eapply readRarFile_fulfilled |].
  intros ext. rewrite rarStep_fold. simpl. rewrite elem_of_addExtensions.
  unfold Spec.rarFiles. setoid_rewrite list_elem_of_fmap.
  setoid_rewrite list_elem_of_filter. split.
  - intros [[]%not_elem_of_nil | (s & (h & -> & Hdir & Hin) & Hext)].
    exists h. split_and!; [done | by destruct (FileHeader.directory h) | done].
  - intros (h & Hin & Hdir & Hext). right. exists (FileHeader.name h).
    split; [| done]. exists h.
    split_and!; [done | rewrite Hdir; simpl; tauto | done].
Qed.

Lemma readRarFile_exts_witness :
  Archive.files Spec.sampleRar = Some [FileWithPath.mk "docs.rar" 9 None]
  ∧ readRarFile (λ _, Fulfilled Spec.sampleHeaders) Spec.sampleRar
    = Fulfilled (ArchiveInfo.mk "docs.rar" 9 ["txt"; "md"] 2 1)
  ∧ ∃ info,
      readRarFile (λ _, Fulfilled Spec.sampleHeaders) Spec.sampleRar = Fulfilled info
      ∧ ∀ ext, ext ∈ ArchiveInfo.exts info
               ↔ ∃ h, h ∈ Spec.sampleHeaders ∧ FileHeader.directory h = false
                      ∧ Spec.recordedAs (FileHeader.name h) ext.
Proof.
  split; [done |]. split; [by vm_compute |].
  exact (readRarFile_exts (λ _, Fulfilled Spec.sampleHeaders) Spec.sampleRar
           [FileWithPath.mk "docs.rar" 9 None] Spec.sampleHeaders eq_refl eq_refl).
Defined.

(** [readFolder] on members that all carry a path, in closed form. *)
Lemma readFolder_fulfilled (archive : Archive.t) (files : list FileWithPath.t) :
  Archive.files archive = Some files →
  Forall (λ f, is_Some (FileWithPath.path f)) files →
  ∃ folderTree,
    readFolder archive
    = Fulfilled (ArchiveInfo.mk (Archive.name archive) (Archive.size archive)
                   (foldl (λ exts s, addExtension s exts) []
                          (FileWithPath.name <$> files))
                   (length files) (length (Spec.treePairs folderTree)))
    ∧ NoDup (Spec.treePairs folderTree)
    ∧ ∀ x, x ∈ Spec.treePairs folderTree ↔ x ∈ Spec.depthNamePairs files.
Proof.
  intros Hfiles Hpaths. unfold readFolder. rewrite Hfiles.
  cbn [nonNull mbind promise_bind].
  destruct (readFolderLoop_pairs files [] [] Hpaths)
    as (extensions & folderTree & Hloop & Hwf & Hpairs).
  { split; [apply NoDup_nil_2 | constructor]. }
  pose proof (readFolderLoop_exts _ _ _ _ Hloop) as Hexts.
  cbn [fst] in Hexts. subst extensions.
  exists folderTree. rewrite Hloop. cbn [mbind promise_bind fst snd].
  rewrite countFolders_treePairs.
  split_and!; [done | by apply wellFormed_NoDup |].
  intros x. rewrite Hpairs. split; [by intros [? | []%not_elem_of_nil] | by left].
Qed.

(** Whatever the strategy, the extensions reported are the [Set] built
    from a run of names. *)
Lemma readArchiveInfo_exts zipPaths rarFileHeaders (archive : Archive.t)
    (info : ArchiveInfo.t) :
  readArchiveInfo zipPaths rarFileHeaders archive = Fulfilled info →
  ∃ names, ArchiveInfo.exts info
           = foldl (λ exts s, addExtension s exts) [] names.
Proof.
  unfold readArchiveInfo, readZipfile, readRarFile, readFolder.
  destruct (Archive.type archive), (Archive.files archive) as [files |];
    simpl; try done.
  - destruct (zipPaths _) as [paths | |]; simpl; [| done | done].
    intros [= <-]. rewrite zipStep_fold. simpl. eauto.
  - destruct (rarFileHeaders _) as [headers | |]; simpl; [| done | done].
    intros [= <-]. rewrite rarStep_fold. simpl. eauto.
  - destruct (readFolderLoop files [] []) as [st | |] eqn:Hloop; simpl;
      [| done | done].
    intros [= <-]. simpl. rewrite (readFolderLoop_exts _ _ _ _ Hloop). eauto.
Qed.

(** X5: on a folder archive whose members all carry a path, [readFolder]
    is fulfilled: name and size are the archive's, [fileCount] is the
    number of members, and the extensions are exactly those under which
    the name of some member is recorded. *)
Theorem readFolder_exts (archive : Archive.t) (files : list FileWithPath.t) :
  Archive.files archive = Some files →
  Forall (λ f, is_Some (FileWithPath.path f)) files →
  ∃ info,
    readFolder archive = Fulfilled info
    ∧ ArchiveInfo.name info = Archive.name archive
    ∧ ArchiveInfo.size info = Archive.size archive
    ∧ ArchiveInfo.fileCount info = length files
    ∧ ∀ ext, ext ∈ ArchiveInfo.exts info
             ↔ ∃ f, f ∈ files ∧ Spec.recordedAs (FileWithPath.name f) ext.
Proof.
  intros Hfiles Hpaths.
  destruct (readFolder_fulfilled archive files Hfiles Hpaths)
    as (folderTree & -> & _ & _).
  eexists. split; [done |]. simpl. split_and!; [done | done | done |].
  intros ext. rewrite elem_of_addExtensions.
  setoid_rewrite list_elem_of_fmap. split.
  - intros [[]%not_elem_of_nil | (s & (f & -> & Hin) & Hext)]. eauto.
  - intros (f & Hin & Hext). right. eauto.
Qed.

Lemma readFolder_exts_witness :
  Archive.files Spec.sampleFolder = Some Spec.nestedMembers
  ∧ Forall (λ f, is_Some (FileWithPath.path f)) Spec.nestedMembers
  ∧ readFolder Spec.sampleFolder
    = Fulfilled (ArchiveInfo.mk "a" 6 ["txt"] 3 2)
  ∧ ∃ info,
      readFolder Spec.sampleFolder = Fulfilled info
      ∧ ArchiveInfo.name info = "a"
      ∧ ArchiveInfo.size info = 6
      ∧ ArchiveInfo.fileCount info = 3%nat
      ∧ ∀ ext, ext ∈ ArchiveInfo.exts info
               ↔ ∃ f, f ∈ Spec.nestedMembers
                      ∧ Spec.recordedAs (FileWithPath.name f) ext.
Proof.
  assert (Forall (λ f, is_Some (FileWithPath.path f)) Spec.nestedMembers)
    as Hpaths by (repeat constructor; by eexists).
  split; [done |]. split; [done |]. split; [by vm_compute |].
  exact (readFolder_exts Spec.sampleFolder Spec.nestedMembers eq_refl Hpaths).
Defined.

(** X6: whatever the type of the archive and whatever the decoders
    return, no extension is reported twice. *)
Theorem exts_distinct zipPaths rarFileHeaders (archive : Archive.t)
    (info : ArchiveInfo.t) :
  readArchiveInfo zipPaths rarFileHeaders archive = Fulfilled info →
  NoDup (ArchiveInfo.exts info).
Proof.
  intros (names & ->)%readArchiveInfo_exts.
  apply NoDup_addExtensions, NoDup_nil_2.
Qed.

Lemma exts_distinct_witness :
  readArchiveInfo (λ _, Rejected DecodeError) (λ _, Fulfilled Spec.sampleHeaders)
    Spec.sampleRar
  = Fulfilled (ArchiveInfo.mk "docs.rar" 9 ["txt"; "md"] 2 1)
  ∧ NoDup ["txt"; "md"].
Proof.
  split; [by vm_compute |].
  apply (exts_distinct (λ _, Rejected DecodeError)
           (λ _, Fulfilled Spec.sampleHeaders) Spec.sampleRar
           (ArchiveInfo.mk "docs.rar" 9 ["txt"; "md"] 2 1)).
  by vm_compute.
Defined.

(** X7: whatever the type of the archive and whatever the decoders
    return, no reported extension holds a '.'. *)
Theorem exts_hold_no_dot zipPaths rarFileHeaders (archive : Archive.t)
    (info : ArchiveInfo.t) (ext : string) :
  readArchiveInfo zipPaths rarFileHeaders archive = Fulfilled info →
  ext ∈ ArchiveInfo.exts info →
  Spec.occurs "." ext = false.
Proof.
  intros (names & ->)%readArchiveInfo_exts.
  intros [[]%not_elem_of_nil | (s & _ & Hext)]%elem_of_addExtensions.
  by eapply recordedAs_no_dot.
Qed.

Lemma exts_hold_no_dot_witness :
  readArchiveInfo (λ _, Fulfilled ["pack.tar.gz"]) (λ _, Rejected DecodeError)
    Spec.sampleZip
  = Fulfilled (ArchiveInfo.mk "docs.zip" 7 ["gz"] 1 0)
  ∧ "gz" ∈ ["gz"]
  ∧ Spec.occurs "." "gz" = false.
Proof.
  assert ("gz" ∈ ["gz"]) as Hin by by left.
  split; [by vm_compute |]. split; [done |].
  apply (exts_hold_no_dot (λ _, Fulfilled ["pack.tar.gz"])
           (λ _, Rejected DecodeError) Spec.sampleZip
           (ArchiveInfo.mk "docs.zip" 7 ["gz"] 1 0) "gz"); [by vm_compute | done].
Defined.

(** The loop of [readFolder] awaits nothing: it always settles. *)
Lemma readFolderLoop_settles (files : list FileWithPath.t)
    (extensions : list string) (folderTree : list (nat * list string)) :
  readFolderLoop files extensions folderTree ≠ Pending.
Proof.
  revert extensions folderTree.
  induction files as [| file files IH]; intros extensions folderTree; simpl;
    [done |].
  destruct (FileWithPath.path file) as [p |]; simpl; [apply IH | done].
Qed.

(** X8: [readZipfile] and [readRarFile] are rejected in two ways only:
    with a [TypeError] when the archive has no files array, and with the
    decoder's own failure when the decoder rejects [files[0]].  They stay
    pending exactly when the decoder never settles on [files[0]]. *)
Theorem container_extraction_rejected zipPaths rarFileHeaders
    (archive : Archive.t) (e : failure) :
  (readZipfile zipPaths archive = Rejected e
   ↔ (Archive.files archive = None ∧ e = TypeError)
     ∨ ∃ files, Archive.files archive = Some files
                ∧ zipPaths (files !! 0%nat) = Rejected e)
  ∧ (readRarFile rarFileHeaders archive = Rejected e
     ↔ (Archive.files archive = None ∧ e = TypeError)
       ∨ ∃ files, Archive.files archive = Some files
                  ∧ rarFileHeaders (files !! 0%nat) = Rejected e)
  ∧ (readZipfile zipPaths archive = Pending
     ↔ ∃ files, Archive.files archive = Some files
                ∧ zipPaths (files !! 0%nat) = Pending)
  ∧ (readRarFile rarFileHeaders archive = Pending
     ↔ ∃ files, Archive.files archive = Some files
                ∧ rarFileHeaders (files !! 0%nat) = Pending).
Proof.
  unfold readZipfile, readRarFile.
  destruct (Archive.files archive) as [files |]; simpl.
  - split_and!.
    + destruct (zipPaths (files !! 0%nat)) as [paths | e' |] eqn:Hz; simpl.
      * split; [done |]. intros [[[=] _] | (fs & [= <-] & Hfs)]. congruence.
      * split; [intros [= <-]; right; eauto |].
        intros [[[=] _] | (fs & [= <-] & Hfs)]. congruence.
      * split; [done |]. intros [[[=] _] | (fs & [= <-] & Hfs)]. congruence.
    + destruct (rarFileHeaders (files !! 0%nat)) as [headers | e' |] eqn:Hr;
        simpl.
      * split; [done |]. intros [[[=] _] | (fs & [= <-] & Hfs)]. congruence.
      * split; [intros [= <-]; right; eauto |].
        intros [[[=] _] | (fs & [= <-] & Hfs)]. congruence.
      * split; [done |]. intros [[[=] _] | (fs & [= <-] & Hfs)]. congruence.
    + destruct (zipPaths (files !! 0%nat)) as [paths | e' |] eqn:Hz; simpl.
      * split; [done |]. intros (fs & [= <-] & Hfs). congruence.
      * split; [done |]. intros (fs & [= <-] & Hfs). congruence.
      * split; [eauto | done].
    + destruct (rarFileHeaders (files !! 0%nat)) as [headers | e' |] eqn:Hr;
        simpl.
      * split; [done |]. intros (fs & [= <-] & Hfs). congruence.
      * split; [done |]. intros (fs & [= <-] & Hfs). congruence.
      * split; [eauto | done].
  - split_and!.
    + split; [intros [= <-]; by left | intros [[_ ->] | (fs & [=] & _)]; done].
    + split; [intros [= <-]; by left | intros [[_ ->] | (fs & [=] & _)]; done].
    + split; [done | by intros (fs & [=] & _)].
    + split; [done | by intros (fs & [=] & _)].
Qed.

(** X9: [readFolder] fails exactly when the archive has no files array
    or one of its members has no path, and then with a [TypeError]. *)
Theorem readFolder_rejected (archive : Archive.t) (e : failure) :
  readFolder archive = Rejected e
  ↔ e = TypeError
    ∧ (Archive.files archive = None
       ∨ ∃ files f, Archive.files archive = Some files
                    ∧ f ∈ files ∧ FileWithPath.path f = None).
Proof.
  unfold readFolder. destruct (Archive.files archive) as [files |]; simpl.
  - destruct (readFolderLoop files [] []) as [st | e' |] eqn:Hloop; simpl.
    + split; [done |]. intros [-> [[=] | (fs & f & [= <-] & Hin & Hf)]].
      assert (readFolderLoop files [] [] = Rejected TypeError) as Hrej.
      { apply readFolderLoop_rejected. eauto. }
      congruence.
    + apply readFolderLoop_rejected in Hloop as [-> (f & Hin & Hf)]. split.
      * intros [= <-]. split; [done |]. right. eauto.
      * by intros [-> _].
    + by apply readFolderLoop_settles in Hloop.
  - split; [intros [= <-]; split; [done | by left] | by intros [-> _]].
Qed.

Lemma readFolderLoop_fulfilled_paths (files : list FileWithPath.t)
    (extensions : list string) (folderTree : list (nat * list string)) st :
  readFolderLoop files extensions folderTree = Fulfilled st →
  Forall (λ f, is_Some (FileWithPath.path f)) files.
Proof.
  revert extensions folderTree.
  induction files as [| file files IH]; intros extensions folderTree; simpl;
    [by constructor |].
  destruct (FileWithPath.path file) as [p |] eqn:Hp; simpl; [| done].
  intros Hloop. constructor; [by rewrite Hp | by eapply IH].
Qed.

(** X10: the counts [readFolder] reports do not depend on the order of
    the members, and the extensions are the same up to their order: on a
    rearranged files array extraction succeeds just the same, with the
    same [fileCount] and [folderCount] and a permutation of [exts]. *)
Theorem readFolder_order_independent (archive archive' : Archive.t)
    (files files' : list FileWithPath.t) (info : ArchiveInfo.t) :
  Archive.files archive = Some files →
  Archive.files archive' = Some files' →
  files ≡ₚ files' →
  readFolder archive = Fulfilled info →
  ∃ info',
    readFolder archive' = Fulfilled info'
    ∧ ArchiveInfo.fileCount info' = ArchiveInfo.fileCount info
    ∧ ArchiveInfo.folderCount info' = ArchiveInfo.folderCount info
    ∧ ArchiveInfo.exts info' ≡ₚ ArchiveInfo.exts info.
Proof.
  intros Hfiles Hfiles' Hperm Hinfo.
  assert (Forall (λ f, is_Some (FileWithPath.path f)) files) as Hpaths.
  { unfold readFolder in Hinfo. rewrite Hfiles in Hinfo. simpl in Hinfo.
    destruct (readFolderLoop files [] []) as [st | |] eqn:Hloop;
      [| done | done].
    by eapply readFolderLoop_fulfilled_paths. }
  assert (Forall (λ f, is_Some (FileWithPath.path f)) files') as Hpaths'
    by by rewrite <-Hperm.
  destruct (readFolder_fulfilled archive files Hfiles Hpaths)
    as (tree & Hread & Hnd & Hpairs).
  destruct (readFolder_fulfilled archive' files' Hfiles' Hpaths')
    as (tree' & Hread' & Hnd' & Hpairs').
  rewrite Hread in Hinfo. injection Hinfo as <-.
  eexists. split; [exact Hread' |]. simpl. split_and!.
  - by rewrite Hperm.
  - apply Permutation_length, NoDup_Permutation; [done | done |].
    intros x. rewrite Hpairs, Hpairs'. unfold Spec.depthNamePairs.
    by rewrite Hperm.
  - apply NoDup_Permutation; try (apply NoDup_addExtensions, NoDup_nil_2).
    intros ext. rewrite !elem_of_addExtensions.
    by setoid_rewrite Hperm.
Qed.

Lemma readFolder_order_independent_witness :
  Archive.files Spec.sampleFolder = Some Spec.nestedMembers
  ∧ Spec.nestedMembers ≡ₚ reverse Spec.nestedMembers
  ∧ readFolder Spec.sampleFolder = Fulfilled (ArchiveInfo.mk "a" 6 ["txt"] 3 2)
  ∧ ∃ info',
      readFolder (Archive.mk "a" 6 ArchiveType.folder
                    (Some (reverse Spec.nestedMembers)))
      = Fulfilled info'
      ∧ ArchiveInfo.fileCount info' = 3%nat
      ∧ ArchiveInfo.folderCount info' = 2%nat
      ∧ ArchiveInfo.exts info' ≡ₚ ["txt"].
Proof.
  assert (Spec.nestedMembers ≡ₚ reverse Spec.nestedMembers) as Hperm
    by (symmetry; apply reverse_Permutation).
  assert (readFolder Spec.sampleFolder
          = Fulfilled (ArchiveInfo.mk "a" 6 ["txt"] 3 2)) as Hread
    by by vm_compute.
  split; [done |]. split; [done |]. split; [done |].
  exact (readFolder_order_independent Spec.sampleFolder
           (Archive.mk "a" 6 ArchiveType.folder (Some (reverse Spec.nestedMembers)))
           Spec.nestedMembers (reverse Spec.nestedMembers)
           (ArchiveInfo.mk "a" 6 ["txt"] 3 2) eq_refl eq_refl Hperm Hread).
Defined.

End Extraction.

(** ** Lookups in insertion-ordered maps *)

Section JSMapLookup.
Context {K V : Type} `{EqDecision K}.
Implicit Types (k : K) (v : V) (m : list (K * V)).

(** What [get] finds after the has / set / get-and-mutate idiom. *)
Lemma get_ensure_mutate k k0 v0 (f : V → V) m :
  JSMap.get k (JSMap.mutate k0 f (if JSMap.has k0 m then m
                                  else JSMap.set k0 v0 m))
  = if decide (k = k0) then Some (f (default v0 (JSMap.get k0 m)))
    else JSMap.get k m.
Proof.
  induction m as [| [k' v] m IH].
  - rewrite ensure_mutate_nil. simpl. by case_decide.
  - rewrite ensure_mutate_cons.
    destruct (decide (k0 = k')) as [<- | Hne]; simpl.
    + rewrite (decide_True (P := k0 = k0)) by done. by case_decide.
    + rewrite IH, (decide_False (P := k0 = k')) by done.
      repeat case_decide; congruence.
Qed.

Lemma get_Some_elem_of k v m : JSMap.get k m = Some v → (k, v) ∈ m.
Proof.
  induction m as [| [k' v'] m IH]; simpl; [done |].
  case_decide as Hk; [intros [= <-]; subst; by left | right; auto].
Qed.

Lemma elem_of_get k v m : NoDup m.*1 → (k, v) ∈ m → JSMap.get k m = Some v.
Proof.
  induction m as [| [k' v'] m IH]; [by intros _ []%not_elem_of_nil |].
  rewrite fmap_cons. intros [Hfresh Hnd]%NoDup_cons Hin. simpl.
  apply elem_of_cons in Hin as [[= <- <-] | Hin].
  - by rewrite decide_True.
  - rewrite decide_False; [by apply IH |].
    intros <-. apply Hfresh, list_elem_of_fmap. by exists (k, v).
Qed.
End JSMapLookup.

(** ** What grouping returns *)

Section GroupingFacts.
Import ArchiveInfoReader.

Lemma NoDup_add_fold {T} `{EqDecision T} (l names : list T) :
  NoDup names → NoDup (foldl (λ names name, JSSet.add name names) names l).
Proof.
  revert names. induction l as [| x l IH]; intros names Hnd; [done |].
  cbn [foldl]. by apply IH, NoDup_add.
Qed.

Lemma elem_of_add_fold {T} `{EqDecision T} (x : T) (l names : list T) :
  x ∈ foldl (λ names name, JSSet.add name names) names l ↔ x ∈ names ∨ x ∈ l.
Proof.
  revert names. induction l as [| y l IH]; intros names.
  - simpl. split; [by left | by intros [? | []%not_elem_of_nil]].
  - cbn [foldl]. rewrite IH, elem_of_add, elem_of_cons. tauto.
Qed.

Lemma groupStep_keys_NoDup (files : list FileWithPath.t) :
  NoDup (foldl groupStep [] files).*1.
Proof. rewrite groupStep_keys. apply NoDup_add_fold, NoDup_nil_2. Qed.

(** The members the second loop files under a name: those of the map it
    started from, then the files of that top-level folder, in the order
    of the batch. *)
Lemma groupStep_get (name : string) (files : list FileWithPath.t)
    (folders : list (string * list FileWithPath.t)) :
  JSMap.get name (foldl groupStep folders files)
  = match JSMap.get name folders with
    | Some members =>
        Some (members ++ filter (λ f, Spec.topFolder f = Some name) files)
    | None =>
        if decide (filter (λ f, Spec.topFolder f = Some name) files = [])
        then None
        else Some (filter (λ f, Spec.topFolder f = Some name) files)
    end.
Proof.
  revert folders. induction files as [| file files IH]; intros folders.
  { simpl. destruct (JSMap.get name folders); [by rewrite app_nil_r | done]. }
  cbn [foldl]. rewrite IH, groupStep_topFolder, filter_cons.
  destruct (Spec.topFolder file) as [top |] eqn:Htop.
  - rewrite get_ensure_mutate.
    destruct (decide (name = top)) as [-> | Hne].
    + rewrite decide_True by done.
      destruct (JSMap.get top folders) as [members |]; simpl.
      * by rewrite <-app_assoc.
      * by rewrite ?decide_False.
    + rewrite (decide_False (P := Some top = Some name)) by congruence. done.
  - rewrite (decide_False (P := None = Some name)) by done. done.
Qed.

(** The entries of the map the second loop builds from scratch. *)
Lemma groupStep_entry (name : string) (members files : list FileWithPath.t) :
  (name, members) ∈ foldl groupStep [] files →
  members = filter (λ f, Spec.topFolder f = Some name) files ∧ members ≠ [].
Proof.
  intros Hin%elem_of_get; [| apply groupStep_keys_NoDup].
  rewrite groupStep_get in Hin. simpl in Hin.
  case_decide as Hempty; [done |]. injection Hin as <-. done.
Qed.

Lemma elem_of_preprocess (files : list FileWithPath.t) (a : Archive.t) :
  a ∈ preprocess files
  ↔ (∃ f, f ∈ files ∧ Spec.isContainer f = true ∧ a = Spec.containerArchive f)
    ∨ (∃ name members,
         (name, members)
           ∈ foldl groupStep [] (filter (λ f, ¬ Spec.isContainer f) files)
         ∧ a = folderArchive (name, members)).
Proof.
  rewrite preprocess_eq, elem_of_app, !list_elem_of_fmap. split.
  - intros [(f & -> & [Hc Hin]%list_elem_of_filter) | ([name members] & -> & Hin)].
    + left. exists f. split_and!; [done | by apply Is_true_true | done].
    + right. eauto.
  - intros [(f & Hin & Hc & ->) | (name & members & Hin & ->)].
    + left. exists f. split; [done |]. apply list_elem_of_filter.
      split; [by rewrite Hc | done].
    + right. by exists (name, members).
Qed.

Lemma folderArchives_preprocess (files : list FileWithPath.t) :
  Spec.folderArchives (preprocess files)
  = folderArchive
      <$> foldl groupStep [] (filter (λ f, ¬ Spec.isContainer f) files).
Proof.
  rewrite preprocess_eq. unfold Spec.folderArchives. rewrite filter_app.
  assert (∀ l, filter (λ a, Archive.type a = ArchiveType.folder)
                 (Spec.containerArchive <$> l) = []) as ->.
  { intros l. induction l as [| f l IH]; [done |].
    rewrite fmap_cons, filter_cons_False; [done |].
    simpl. by case_match. }
  simpl. generalize (foldl groupStep [] (filter (λ f, ¬ Spec.isContainer f) files)).
  intros l. induction l as [| [name members] l IH]; [done |].
  by rewrite fmap_cons, filter_cons_True, IH.
Qed.

Lemma preprocess_members_nonempty (files : list FileWithPath.t) (a : Archive.t) :
  a ∈ preprocess files → Spec.members a ≠ [].
Proof.
  intros [(f & _ & _ & ->) | (name & members & Hin & ->)]%elem_of_preprocess;
    [done |].
  apply groupStep_entry in Hin as [_ Hne]. done.
Qed.

Lemma totalSize_from (files : list FileWithPath.t) (sum : Z) :
  0 ≤ sum →
  Forall (λ f, 0 ≤ FileWithPath.size f) files →
  sum + Spec.sumFileSizes files ≤ 2 ^ 53 →
  foldl (λ sum file, JS.add sum (FileWithPath.size file)) sum files
  = sum + Spec.sumFileSizes files.
Proof.
  intros Hsum Hsizes. revert sum Hsum.
  induction Hsizes as [| file files Hfile Hrest IH]; intros sum Hsum.
  - unfold Spec.sumFileSizes. simpl. lia.
  - pose proof (sumFileSizes_nonneg files Hrest) as Hnonneg.
    unfold Spec.sumFileSizes in *. cbn [foldl foldr]. intros Hbound.
    rewrite add_exact by lia. rewrite IH by lia. lia.
Qed.

(** The total of a folder is the sum of the sizes of its files as long
    as that sum is at most 2^53. *)
Lemma totalSize_exact (files : list FileWithPath.t) :
  Spec.exactSizes files →
  ArchiveInfoReader.totalSize files = Spec.sumFileSizes files.
Proof.
  intros [Hsizes Hbound]. unfold totalSize.
  rewrite totalSize_from by (done || lia). lia.
Qed.

Lemma sumFileSizes_app (files files' : list FileWithPath.t) :
  Spec.sumFileSizes (files ++ files')
  = Spec.sumFileSizes files + Spec.sumFileSizes files'.
Proof.
  unfold Spec.sumFileSizes. induction files as [| f files IH]; simpl; lia.
Qed.

Lemma sumFileSizes_perm (files files' : list FileWithPath.t) :
  files ≡ₚ files' → Spec.sumFileSizes files = Spec.sumFileSizes files'.
Proof. unfold Spec.sumFileSizes. induction 1; simpl; lia. Qed.

Lemma archive_size_members (files : list FileWithPath.t) (a : Archive.t) :
  a ∈ preprocess files →
  Spec.exactSizes (Spec.members a) →
  Archive.size a = Spec.sumFileSizes (Spec.members a).
Proof.
  intros [(f & _ & _ & ->) | (name & members & _ & ->)]%elem_of_preprocess.
  - intros _. unfold Spec.sumFileSizes. simpl. lia.
  - unfold Spec.members. simpl. intros Hexact. by apply totalSize_exact.
Qed.

Lemma sumFileSizes_filter_le (P : FileWithPath.t → Prop)
    `{!∀ f, Decision (P f)} (files : list FileWithPath.t) :
  Forall (λ f, 0 ≤ FileWithPath.size f) files →
  Spec.sumFileSizes (filter P files) ≤ Spec.sumFileSizes files.
Proof.
  unfold Spec.sumFileSizes. induction 1 as [| f files Hf _ IH]; [done |].
  rewrite filter_cons. case_decide; simpl; lia.
Qed.

Lemma Forall_nonneg_filter (P : FileWithPath.t → Prop)
    `{!∀ f, Decision (P f)} (files : list FileWithPath.t) :
  Forall (λ f, 0 ≤ FileWithPath.size f) files →
  Forall (λ f, 0 ≤ FileWithPath.size f) (filter P files).
Proof.
  rewrite !Forall_forall. intros Hall f [_ Hin]%list_elem_of_filter. by apply Hall.
Qed.

(** The members of the archives grouping returns are sized like the
    batch they come from. *)
Lemma exactSizes_allMembers (files : list FileWithPath.t) :
  Spec.exactSizes files →
  Spec.exactSizes (Spec.allMembers (preprocess files)).
Proof.
  intros [Hsizes Hbound]. pose proof (preprocess_members files) as Hperm.
  split.
  - rewrite Hperm. by apply Forall_nonneg_filter.
  - rewrite (sumFileSizes_perm _ _ Hperm).
    pose proof (sumFileSizes_filter_le (λ f, Spec.groupable f) files Hsizes).
    lia.
Qed.

Lemma exactSizes_app (files files' : list FileWithPath.t) :
  Spec.exactSizes (files ++ files') →
  Spec.exactSizes files ∧ Spec.exactSizes files'.
Proof.
  intros [[Hl Hr]%Forall_app Hbound]. rewrite sumFileSizes_app in Hbound.
  pose proof (sumFileSizes_nonneg _ Hl). pose proof (sumFileSizes_nonneg _ Hr).
  split; (split; [done | lia]).
Qed.

Lemma exactSizes_members (files : list FileWithPath.t) (a : Archive.t) :
  Spec.exactSizes files → a ∈ preprocess files →
  Spec.exactSizes (Spec.members a).
Proof.
  intros Hexact%exactSizes_allMembers Ha.
  induction (preprocess files) as [| b archives IH];
    [by apply not_elem_of_nil in Ha |].
  change (Spec.allMembers (b :: archives))
    with (Spec.members b ++ Spec.allMembers archives) in Hexact.
  apply exactSizes_app in Hexact as [Hb Hrest].
  apply elem_of_cons in Ha as [-> | Ha]; [done | by apply IH].
Qed.

(** X11: the folder archives grouping returns have pairwise distinct
    names, and none of these names holds a '/'. *)
Theorem folder_names_distinct (files : list FileWithPath.t) :
  NoDup (Archive.name <$> Spec.folderArchives (preprocess files))
  ∧ ∀ a, a ∈ Spec.folderArchives (preprocess files) →
         Spec.occurs "/" (Archive.name a) = false.
Proof.
  rewrite folderArchives_preprocess.
  assert (∀ m : list (string * list FileWithPath.t),
            Archive.name <$> (folderArchive <$> m) = m.*1) as Hnames.
  { intros m. rewrite <-list_fmap_compose. apply list_fmap_ext.
    by intros _ [name members] _. }
  split.
  - rewrite Hnames. apply groupStep_keys_NoDup.
  - intros a Ha.
    assert (Archive.name a
              ∈ Archive.name <$> (folderArchive <$> foldl groupStep []
                   (filter (λ f, ¬ Spec.isContainer f) files))) as Hin
      by by apply list_elem_of_fmap_2.
    rewrite Hnames, groupStep_keys, elem_of_add_fold in Hin.
    destruct Hin as [[]%not_elem_of_nil | Hin].
    apply list_elem_of_omap in Hin as (f & _ & Htop).
    unfold Spec.topFolder in Htop.
    destruct (Spec.hasRootedPath f); [| done].
    destruct (FileWithPath.path f) as [p |]; [| done]. simpl in Htop.
    apply (split_segments_no_sep "/" p). by eapply list_elem_of_lookup_2.
Qed.

(** X12: the files array of a folder archive that grouping returns holds
    exactly the entries that are neither zip nor rar and whose path has
    the archive's name as its first segment after the leading '/', in the
    order of the batch; it is never empty. *)
Theorem folder_members (files : list FileWithPath.t) (a : Archive.t) :
  a ∈ preprocess files →
  Archive.type a = ArchiveType.folder →
  Archive.files a
  = Some (filter (λ f, Spec.topFolder f = Some (Archive.name a))
                 (filter (λ f, ¬ Spec.isContainer f) files))
  ∧ Spec.members a ≠ [].
Proof.
  intros Ha Htype. split; [| by eapply preprocess_members_nonempty].
  apply elem_of_preprocess in Ha
    as [(f & _ & _ & ->) | (name & members & Hin & ->)].
  { simpl in Htype. by case_match. }
  apply groupStep_entry in Hin as [-> _]. done.
Qed.

Lemma folder_members_witness :
  Spec.mixedFolderA ∈ preprocess Spec.mixedBatch
  ∧ Archive.type Spec.mixedFolderA = ArchiveType.folder
  ∧ Archive.files Spec.mixedFolderA
    = Some (filter (λ f, Spec.topFolder f = Some "a")
                   (filter (λ f, ¬ Spec.isContainer f) Spec.mixedBatch))
  ∧ Spec.members Spec.mixedFolderA ≠ [].
Proof.
  assert (Spec.mixedFolderA ∈ preprocess Spec.mixedBatch) as Hin.
  { assert (preprocess Spec.mixedBatch !! 1%nat = Some Spec.mixedFolderA)
      as Hlookup by by vm_compute.
    by eapply list_elem_of_lookup_2. }
  split; [done |]. split; [done |].
  exact (folder_members Spec.mixedBatch Spec.mixedFolderA Hin eq_refl).
Defined.

(** X14: grouping conserves size: when the sizes of the batch are not
    negative and add up to at most 2^53, the sizes of the returned
    archives add up to the sizes of the entries of the batch that grouping
    keeps. *)
Theorem preprocess_conserves_size (files : list FileWithPath.t) :
  Spec.exactSizes files →
  Spec.sumArchiveSizes (preprocess files)
  = Spec.sumFileSizes (filter (λ f, Spec.groupable f) files).
Proof.
  intros Hexact.
  rewrite <-(sumFileSizes_perm _ _ (preprocess_members files)).
  assert (∀ a, a ∈ preprocess files →
               Archive.size a = Spec.sumFileSizes (Spec.members a)) as Hsizes.
  { intros a Ha. apply (archive_size_members files a Ha).
    by apply (exactSizes_members files). }
  clear Hexact.
  induction (preprocess files) as [| a archives IH]; [done |].
  unfold Spec.allMembers. rewrite bind_cons, sumFileSizes_app. simpl.
  rewrite (Hsizes a) by by left.
  f_equal. apply IH. intros b Hb. apply Hsizes. by right.
Qed.

Lemma preprocess_conserves_size_witness :
  Spec.exactSizes Spec.mixedBatch
  ∧ Spec.sumArchiveSizes (preprocess Spec.mixedBatch) = 38
  ∧ Spec.sumArchiveSizes (preprocess Spec.mixedBatch)
    = Spec.sumFileSizes (filter (λ f, Spec.groupable f) Spec.mixedBatch).
Proof.
  assert (Spec.exactSizes Spec.mixedBatch) as Hexact.
  { split; [repeat constructor; simpl; lia | by vm_compute]. }
  split; [done |]. split; [by vm_compute |].
  exact (preprocess_conserves_size Spec.mixedBatch Hexact).
Defined.

Lemma length_allMembers (archives : list Archive.t) :
  (∀ a, a ∈ archives → Spec.members a ≠ []) →
  (length archives ≤ length (Spec.allMembers archives))%nat.
Proof.
  induction archives as [| a archives IH]; intros Hne; [done |].
  unfold Spec.allMembers. rewrite bind_cons, length_app. simpl.
  assert (Spec.members a ≠ []) as Ha by (apply Hne; by left).
  assert (length archives ≤ length (Spec.allMembers archives))%nat as Hrest.
  { apply IH. intros b Hb. apply Hne. by right. }
  unfold Spec.allMembers in Hrest.
  destruct (Spec.members a); [done |]. simpl. lia.
Qed.

(** X15: grouping returns no archive exactly when the batch holds no
    entry it keeps: neither a zip, nor a rar, nor a file whose path starts
    with '/'. *)
Theorem preprocess_nil_iff (files : list FileWithPath.t) :
  preprocess files = [] ↔ Forall (λ f, Spec.groupable f = false) files.
Proof.
  pose proof (preprocess_members files) as Hperm. split.
  - intros Hnil. rewrite Hnil in Hperm. symmetry in Hperm.
    apply Permutation_nil_r in Hperm.
    apply Forall_forall. intros f Hf.
    destruct (Spec.groupable f) eqn:Hg; [| done].
    assert (f ∈ filter (λ f, Spec.groupable f) files) as Hin.
    { apply list_elem_of_filter. split; [by rewrite Hg | done]. }
    rewrite Hperm in Hin. by apply not_elem_of_nil in Hin.
  - intros Hall.
    assert (filter (λ f, Spec.groupable f) files = []) as Hnone.
    { clear Hperm. induction Hall as [| f files Hf _ IH]; [done |].
      rewrite filter_cons_False; [done | rewrite Hf; simpl; tauto]. }
    rewrite Hnone in Hperm. apply Permutation_nil_r in Hperm.
    pose proof (length_allMembers (preprocess files)
                  (preprocess_members_nonempty files)) as Hlen.
    rewrite Hperm in Hlen. simpl in Hlen.
    destruct (preprocess files); [done | simpl in Hlen; lia].
Qed.

(** X16: grouping returns at most one archive per entry it keeps, hence
    never more archives than the batch has entries. *)
Theorem preprocess_length_bound (files : list FileWithPath.t) :
  (length (preprocess files) ≤ length (filter (λ f, Spec.groupable f) files)
   ≤ length files)%nat.
Proof.
  split; [| apply length_filter].
  rewrite <-(Permutation_length (preprocess_members files)).
  apply length_allMembers, preprocess_members_nonempty.
Qed.

End GroupingFacts.

(** ** Extraction of grouped archives *)

Section GroupedExtraction.
Import ArchiveInfoReader.
Variable zipPaths : option FileWithPath.t → promise (list string).
Variable rarFileHeaders : option FileWithPath.t → promise (list FileHeader.t).

(** X17: extraction of an archive that grouping returned fails only
    through a decoder: the archive is then the zip or rar archive of a
    file of the batch, and the decoder rejected that very file with the
    failure reported.  In particular extraction of a folder archive from
    grouping never fails. *)
Theorem grouped_extraction_rejected (files : list FileWithPath.t)
    (a : Archive.t) (e : failure) :
  a ∈ preprocess files →
  readArchiveInfo zipPaths rarFileHeaders a = Rejected e →
  ∃ f, f ∈ files
       ∧ Archive.files a = Some [f]
       ∧ ((Archive.type a = ArchiveType.zip ∧ zipPaths (Some f) = Rejected e)
          ∨ (Archive.type a = ArchiveType.rar
             ∧ rarFileHeaders (Some f) = Rejected e)).
Proof.
  intros Ha Hrej.
  destruct (proj1 (elem_of_preprocess files a) Ha)
    as [(f & Hf & _ & ->) | (name & members & _ & ->)].
  - exists f. split; [done |]. split; [done |].
    unfold readArchiveInfo, readZipfile, readRarFile, Spec.containerArchive in *.
    simpl in *. destruct (Spec.isZip f); simpl in *.
    + left. split; [done |].
      destruct (zipPaths (Some f)); simpl in Hrej; congruence.
    + right. split; [done |].
      destruct (rarFileHeaders (Some f)); simpl in Hrej; congruence.
  - destruct (preprocess_folders_readable files _ Ha eq_refl)
      as (members' & Hfiles & Hpaths).
    destruct (readFolder_fulfilled _ _ Hfiles Hpaths) as (tree & Hread & _).
    change (readFolder (folderArchive (name, members)) = Rejected e) in Hrej.
    congruence.
Qed.

(** X18: a folder archive that grouping returned is always extracted:
    the record carries the archive's name and size, the number of
    members, which is at least one, as [fileCount], and the number of
    distinct (depth, name) pairs among the intermediate segments of the
    members' paths as [folderCount]; the size is the sum of the members'
    sizes when these are not negative and add up to at most 2^53. *)
Theorem grouped_folder_extracted (files : list FileWithPath.t) (a : Archive.t) :
  a ∈ preprocess files →
  Archive.type a = ArchiveType.folder →
  ∃ members info,
    Archive.files a = Some members
    ∧ readArchiveInfo zipPaths rarFileHeaders a = Fulfilled info
    ∧ ArchiveInfo.name info = Archive.name a
    ∧ ArchiveInfo.size info = Archive.size a
    ∧ (Spec.exactSizes members →
       ArchiveInfo.size info = Spec.sumFileSizes members)
    ∧ ArchiveInfo.fileCount info = length members
    ∧ (0 < ArchiveInfo.fileCount info)%nat
    ∧ ArchiveInfo.folderCount info = Spec.distinctDepthNamePairs members.
Proof.
  intros Ha Htype.
  destruct (preprocess_folders_readable files _ Ha Htype)
    as (members & Hfiles & Hpaths).
  destruct (readFolder_fulfilled _ _ Hfiles Hpaths)
    as (tree & Hread & Hnd & Hpairs).
  pose proof (archive_size_members files a Ha) as Hsize.
  pose proof (preprocess_members_nonempty files a Ha) as Hne.
  unfold Spec.members in Hsize, Hne. rewrite Hfiles in Hsize, Hne.
  simpl in Hsize, Hne.
  exists members. eexists. split; [done |].
  unfold readArchiveInfo. rewrite Htype. split; [exact Hread |].
  simpl. split_and!; [done | done | done | done | | ].
  - destruct members; [done | simpl; lia].
  - unfold Spec.distinctDepthNamePairs.
    rewrite <-(size_list_to_set (C := gset (nat * string))) by done.
    f_equal. apply set_eq. intros x. by rewrite !elem_of_list_to_set, Hpairs.
Qed.

End GroupedExtraction.

Lemma grouped_extraction_rejected_witness :
  Spec.mixedZip ∈ ArchiveInfoReader.preprocess Spec.mixedBatch
  ∧ ArchiveInfoReader.readArchiveInfo
      (λ _, Rejected DecodeError) (λ _, Fulfilled []) Spec.mixedZip
    = Rejected DecodeError
  ∧ ∃ f, f ∈ Spec.mixedBatch
         ∧ Archive.files Spec.mixedZip = Some [f]
         ∧ ((Archive.type Spec.mixedZip = ArchiveType.zip
             ∧ (λ _ : option FileWithPath.t,
                  Rejected (A := list string) DecodeError) (Some f)
               = Rejected DecodeError)
            ∨ (Archive.type Spec.mixedZip = ArchiveType.rar
               ∧ (λ _ : option FileWithPath.t,
                    Fulfilled ([] : list FileHeader.t)) (Some f)
                 = Rejected DecodeError)).
Proof.
  assert (Spec.mixedZip ∈ ArchiveInfoReader.preprocess Spec.mixedBatch) as Hin.
  { assert (ArchiveInfoReader.preprocess Spec.mixedBatch !! 0%nat
            = Some Spec.mixedZip) as Hlookup by by vm_compute.
    by eapply list_elem_of_lookup_2. }
  split; [done |]. split; [by vm_compute |].
  exact (grouped_extraction_rejected
           (λ _, Rejected DecodeError) (λ _, Fulfilled [])
           Spec.mixedBatch Spec.mixedZip DecodeError Hin eq_refl).
Defined.

Lemma grouped_folder_extracted_witness :
  Spec.mixedFolderA ∈ ArchiveInfoReader.preprocess Spec.mixedBatch
  ∧ Archive.type Spec.mixedFolderA = ArchiveType.folder
  ∧ Spec.exactSizes (Spec.members Spec.mixedFolderA)
  ∧ ∃ members info,
      Archive.files Spec.mixedFolderA = Some members
      ∧ ArchiveInfoReader.readArchiveInfo
          (λ _, Rejected DecodeError) (λ _, Rejected DecodeError)
          Spec.mixedFolderA
        = Fulfilled info
      ∧ ArchiveInfo.name info = "a"
      ∧ ArchiveInfo.size info = 15
      ∧ (Spec.exactSizes members →
         ArchiveInfo.size info = Spec.sumFileSizes members)
      ∧ ArchiveInfo.fileCount info = length members
      ∧ (0 < ArchiveInfo.fileCount info)%nat
      ∧ ArchiveInfo.folderCount info = Spec.distinctDepthNamePairs members.
Proof.
  assert (Spec.mixedFolderA ∈ ArchiveInfoReader.preprocess Spec.mixedBatch)
    as Hin.
  { assert (ArchiveInfoReader.preprocess Spec.mixedBatch !! 1%nat
            = Some Spec.mixedFolderA) as Hlookup by by vm_compute.
    by eapply list_elem_of_lookup_2. }
  split; [done |]. split; [done |].
  split; [split; [repeat constructor; simpl; lia | by vm_compute] |].
  exact (grouped_folder_extracted
           (λ _, Rejected DecodeError) (λ _, Rejected DecodeError)
           Spec.mixedBatch Spec.mixedFolderA Hin eq_refl).
Defined.

(** ** Layout of the reports *)

Section Layout.
Import MoelistFormatter.
Variable toLocaleString : Z → string.

Lemma append_assoc (s t u : string) : (s +:+ t) +:+ u = s +:+ t +:+ u.
Proof.
  induction s as [| c s IH]; [done |].
  rewrite !append_String. by rewrite IH.
Qed.

(** Lengths add up under concatenation. *)
Lemma length_append (s t : string) :
  JS.length (s +:+ t) = (JS.length s + JS.length t)%nat.
Proof.
  induction s as [| c s IH]; [done |].
  rewrite append_String. simpl. rewrite IH. lia.
Qed.

Lemma length_spaces (n : nat) : JS.length (JS.spaces n) = n.
Proof. induction n as [| n IH]; simpl; [done | by rewrite IH]. Qed.

(** Padding never truncates: the result has the width asked for, or the
    length of the text when that is more. *)
Lemma length_padStart (n : nat) (s : string) :
  JS.length (JS.padStart n s) = (n `max` JS.length s)%nat.
Proof. unfold JS.padStart. rewrite length_append, length_spaces. lia. Qed.

Lemma length_padEnd (n : nat) (s : string) :
  JS.length (JS.padEnd n s) = (n `max` JS.length s)%nat.
Proof. unfold JS.padEnd. rewrite length_append, length_spaces. lia. Qed.

Lemma length_label (t : SizeType.t) : (JS.length (SizeType.label t) ≤ 4)%nat.
Proof. destruct t; vm_compute; lia. Qed.

(** A joined list whose first line is not empty is not empty. *)
Lemma join_head (sep : string) (c : ascii) (x : string) (l : list string) :
  ∃ t, JS.join sep (String c x :: l) = String c t.
Proof.
  unfold JS.join. destruct l as [| y l]; simpl; [eauto |].
  rewrite append_String. eauto.
Qed.

(** X19: each of the three formats gives the empty string for the empty
    list only: a list that has a record always renders to some text. *)
Theorem report_empty_iff (infos : list ArchiveInfo.t) :
  (getPreviewStyle toLocaleString infos = "" ↔ infos = [])
  ∧ (getCodeStyle toLocaleString infos = "" ↔ infos = [])
  ∧ (getTableStyle toLocaleString infos = "" ↔ infos = []).
Proof.
  destruct infos as [| info infos]; [done |]. split_and!.
  - split; [| done]. rewrite getPreviewStyle_lines.
    unfold Spec.previewLines, previewHeader. simpl app.
    edestruct join_head as [t ->]. done.
  - split; [| done]. unfold getCodeStyle. rewrite decide_False by done.
    edestruct join_head as [t ->]. done.
  - split; [| done]. rewrite getTableStyle_lines.
    unfold Spec.tableLines. simpl app.
    edestruct join_head as [t ->]. done.
Qed.

(** X20: in a preview row the name follows a prefix of at least 56
    UTF-16 code units, and of exactly 56 when the size text is at most 12
    code units long, the summary at most 24 and the extension list at most
    12: the name then starts in the column where the header has [Name]. *)
Theorem previewLine_alignment (info : ArchiveInfo.t) :
  ∃ pre,
    previewLine toLocaleString info = pre +:+ ArchiveInfo.name info
    ∧ (56 ≤ JS.length pre)%nat
    ∧ ((JS.length (toLocaleString (ArchiveInfo.size info)) ≤ 12)%nat →
       (JS.length (pretty (ArchiveInfo.fileCount info) +:+ " files, " +:+
                   pretty (ArchiveInfo.folderCount info) +:+ " folders")
        ≤ 24)%nat →
       (JS.length (JS.join ", " (ArchiveInfo.exts info)) ≤ 12)%nat →
       JS.length pre = 56%nat)
    ∧ String.substring 56 4 previewHeader = "Name".
Proof.
  unfold previewLine. cbv zeta.
  set (size := toLocaleString (ArchiveInfo.size info)).
  set (type := SizeType.label (getSizeType (ArchiveInfo.size info))).
  set (summary := pretty (ArchiveInfo.fileCount info) +:+ " files, " +:+
                  pretty (ArchiveInfo.folderCount info) +:+ " folders").
  set (extensions := JS.join ", " (ArchiveInfo.exts info)).
  exists (JS.padStart 12 size +:+ " " +:+ JS.padStart 4 type +:+ " " +:+
          JS.padEnd 24 summary +:+ " " +:+ JS.padEnd 12 extensions +:+ " ").
  pose proof (length_label (getSizeType (ArchiveInfo.size info))) as Htype.
  fold type in Htype.
  assert (JS.length " " = 1%nat) as Hspace by done.
  split_and!; [by rewrite !append_assoc | | | done];
    rewrite !length_append, !length_padStart, !length_padEnd, !Hspace; lia.
Qed.

(** X21: in the totals line of the preview the counts follow a prefix of
    at least 18 UTF-16 code units, and of exactly 18 when the total size
    text is at most 12 code units long: the counts then start in the
    column where the header has [Summary]. *)
Theorem previewTotals_alignment (t : totals) :
  ∃ pre,
    previewTotals toLocaleString t
    = pre +:+ pretty (totalFiles t) +:+ " files, " +:+
      pretty (totalFolders t) +:+ " folders"
    ∧ (18 ≤ JS.length pre)%nat
    ∧ ((JS.length (toLocaleString (totalSize t)) ≤ 12)%nat →
       JS.length pre = 18%nat)
    ∧ String.substring 18 7 previewHeader = "Summary".
Proof.
  exists (JS.padStart 12 (toLocaleString (totalSize t)) +:+ "      ").
  unfold previewTotals.
  assert (JS.length "      " = 6%nat) as Hgap by done.
  split_and!; [by rewrite !append_assoc | | | done];
    rewrite !length_append, !length_padStart, !Hgap; lia.
Qed.

End Layout.

(** A row whose extension list holds text outside ASCII: 说明 counts two
    code units, so that the list is 7 code units long and is padded with
    5 spaces. *)
Lemma previewLine_alignment_witness :
  (JS.length (Spec.enUS 1234567) ≤ 12)%nat
  ∧ (JS.length (pretty 3%nat +:+ " files, " +:+ pretty 1%nat +:+ " folders")
     ≤ 24)%nat
  ∧ (JS.length (JS.join ", " ["说明"; "jpg"]) ≤ 12)%nat
  ∧ JS.padEnd 12 (JS.join ", " ["说明"; "jpg"]) = "说明, jpg     "
  ∧ ∃ pre,
      MoelistFormatter.previewLine Spec.enUS
        (ArchiveInfo.mk "a" 1234567 ["说明"; "jpg"] 3 1)
      = pre +:+ "a"
      ∧ JS.length pre = 56%nat.
Proof.
  assert (JS.length (Spec.enUS 1234567) ≤ 12)%nat as Hsize by (vm_compute; lia).
  assert (JS.length (pretty 3%nat +:+ " files, " +:+ pretty 1%nat
                     +:+ " folders") ≤ 24)%nat
    as Hsummary by (vm_compute; lia).
  assert (JS.length (JS.join ", " ["说明"; "jpg"]) ≤ 12)%nat
    as Hexts by (vm_compute; lia).
  split; [done |]. split; [done |]. split; [done |].
  split; [by vm_compute |].
  destruct (previewLine_alignment Spec.enUS
              (ArchiveInfo.mk "a" 1234567 ["说明"; "jpg"] 3 1))
    as (pre & Hline & _ & Hfit & _).
  exists pre. split; [exact Hline | exact (Hfit Hsize Hsummary Hexts)].
Defined.

Lemma previewTotals_alignment_witness :
  (JS.length (Spec.enUS 1234567) ≤ 12)%nat
  ∧ ∃ pre,
      MoelistFormatter.previewTotals Spec.enUS
        (MoelistFormatter.mkTotals 1234567 3 1)
      = pre +:+ pretty 3%nat +:+ " files, " +:+ pretty 1%nat +:+ " folders"
      ∧ JS.length pre = 18%nat.
Proof.
  assert (JS.length (Spec.enUS 1234567) ≤ 12)%nat as Hsize by (vm_compute; lia).
  split; [done |].
  destruct (previewTotals_alignment Spec.enUS
              (MoelistFormatter.mkTotals 1234567 3 1))
    as (pre & Hline & _ & Hfit & _).
  exists pre. split; [exact Hline | exact (Hfit Hsize)].
Defined.

(** ** Size tiers and whole megabytes *)

Section WholeMegabytes.
Import MoelistFormatter.

Lemma belowMB_div (size mb : Z) :
  Spec.belowMB size mb = (size `div` (1024 * 1024) <? mb).
Proof.
  unfold Spec.belowMB.
  pose proof (Z.div_mod size (1024 * 1024) ltac:(lia)) as Hdiv.
  pose proof (Z.mod_pos_bound size (1024 * 1024) ltac:(lia)) as Hmod.
  destruct (Z.ltb_spec size (mb * 1024 * 1024)),
           (Z.ltb_spec (size `div` (1024 * 1024)) mb); try done; lia.
Qed.

(** X22: the tier depends on the whole megabytes of the size only: two
    byte counts with the same number of whole megabytes get the same
    tier. *)
Theorem getSizeType_whole_megabytes (a b : Z) :
  a `div` (1024 * 1024) = b `div` (1024 * 1024) →
  getSizeType a = getSizeType b.
Proof.
  intros Hmb. rewrite !getSizeType_tierOf. unfold Spec.tierOf.
  by rewrite !belowMB_div, Hmb.
Qed.

Lemma getSizeType_whole_megabytes_witness :
  (20 * 1024 * 1024) `div` (1024 * 1024)
  = (20 * 1024 * 1024 + 1048575) `div` (1024 * 1024)
  ∧ getSizeType (20 * 1024 * 1024) = getSizeType (20 * 1024 * 1024 + 1048575).
Proof.
  split; [done |].
  by apply (getSizeType_whole_megabytes
              (20 * 1024 * 1024) (20 * 1024 * 1024 + 1048575)).
Defined.

End WholeMegabytes.
